(** * The Snake: a shallow embedding of [the_snake.py] and its game-state
    properties.

    Pixel coordinates and vectors are Python integers, hence [Z]; Python's
    [//] and [%] with a positive right operand are [Z.div] and [Z.modulo].
    The [random] module is an explicit generator threaded through the code;
    exceptions ([IndexError], [SystemExit]) are results.  The pygame calls
    that only paint ([draw], [display.update], [clock.tick]) read the state
    and never change it, so they have no counterpart here. *)

From Stdlib Require Import ZArith List Bool Lia.
Import ListNotations.
Local Open Scope Z_scope.

(** ** Module-level constants *)

Definition SCREEN_WIDTH : Z := 640.
Definition SCREEN_HEIGHT : Z := 480.
Definition GRID_SIZE : Z := 20.

Definition GRID_WIDTH : Z := SCREEN_WIDTH / GRID_SIZE.
Definition GRID_HEIGHT : Z := SCREEN_HEIGHT / GRID_SIZE.

Definition Vec : Type := Z * Z.
Definition Color : Type := Z * Z * Z.

Definition BOARD_BACKGROUND_COLOR : Color := (0, 0, 0).
Definition SNAKE_COLOR : Color := (0, 255, 0).
Definition APPLE_COLOR : Color := (255, 0, 0).

Definition UP : Vec := (0, -1).
Definition DOWN : Vec := (0, 1).
Definition LEFT : Vec := (-1, 0).
Definition RIGHT : Vec := (1, 0).

(** Tuple equality, [==] on pairs of integers. *)
Definition vec_eqb (p q : Vec) : bool :=
  (fst p =? fst q) && (snd p =? snd q).

(** [x in xs] for a list of tuples. *)
Definition contains (x : Vec) (xs : list Vec) : bool :=
  existsb (vec_eqb x) xs.

(** ** Effects: the random generator and exceptions *)

(** The state of the [random] module: an arbitrary sequence of raw draws and
    how many of them were consumed. *)
Record RNG : Type := mkRNG { tape : nat -> nat; cursor : nat }.

Definition draw (g : RNG) : nat * RNG :=
  (tape g (cursor g), mkRNG (tape g) (S (cursor g))).

Inductive Exception : Type := IndexError | SystemExit.

Inductive Result (A : Type) : Type :=
| Ok (a : A)
| Raise (e : Exception).
Arguments Ok {A} a.
Arguments Raise {A} e.

(** A computation that may draw random numbers and may raise. *)
Definition Py (A : Type) : Type := RNG -> Result (A * RNG).

Definition ret {A} (a : A) : Py A := fun g => Ok (a, g).
Definition raise {A} (e : Exception) : Py A := fun _ => Raise e.
Definition bind {A B} (m : Py A) (k : A -> Py B) : Py B :=
  fun g => match m g with
           | Ok (a, g') => k a g'
           | Raise e => Raise e
           end.

Notation "x <- m ;; k" := (bind m (fun x => k))
  (at level 61, m at next level, right associativity).
Notation "' pat <- m ;; k" := (bind m (fun x => match x with pat => k end))
  (at level 61, pat pattern, m at next level, right associativity).

(** [random.randint(a, b)]: some integer [N] with [a <= N <= b]. *)
Definition randint (a b : Z) : Py Z :=
  fun g => let (n, g') := draw g in Ok (a + Z.of_nat n mod (b - a + 1), g').

(** The index [random.choice] picks in a population of [n] elements. *)
Definition choice_index (n : nat) (raw : nat) : nat := Nat.modulo raw n.

(** [random.choice(seq)]: an element of a non-empty sequence. *)
Definition choice {A} (seq : list A) : Py A :=
  fun g => match seq with
           | [] => Raise IndexError
           | x :: _ =>
               let (n, g') := draw g in
               Ok (nth (choice_index (List.length seq) n) seq x, g')
           end.

(** [xs[0]]. *)
Definition first {A} (xs : list A) : Py A :=
  match xs with
  | [] => raise IndexError
  | x :: _ => ret x
  end.

(** [xs.pop()]: the last element and the list without it. *)
Definition pop {A} (xs : list A) : Py (A * list A) :=
  match xs with
  | [] => raise IndexError
  | x :: _ => ret (List.last xs x, removelast xs)
  end.

(** ** The display: a pygame surface as its pixels *)

(** The colour of every pixel; only the pixels of the window are ever
    written. *)
Definition Surface : Type := Vec -> Color.

(** [pygame.Rect(left, top, width, height)], for coordinates that pygame's
    machine integers hold as they are; the cells of the board are such, and
    what is proved of drawing is proved for cells of the board. *)
Record Rect : Type := mkRect { left : Z; top : Z; width : Z; height : Z }.

Definition in_rect (rect : Rect) (px : Vec) : bool :=
  (left rect <=? fst px) && (fst px <? left rect + width rect)
  && (top rect <=? snd px) && (snd px <? top rect + height rect).

(** The pixels of the [SCREEN_WIDTH] x [SCREEN_HEIGHT] window. *)
Definition on_screen (px : Vec) : bool :=
  (0 <=? fst px) && (fst px <? SCREEN_WIDTH)
  && (0 <=? snd px) && (snd px <? SCREEN_HEIGHT).

(** [screen.fill(color)]. *)
Definition surface_fill (surface : Surface) (color : Color) : Surface :=
  fun px => if on_screen px then color else surface px.

(** [pygame.draw.rect(surface, color, rect)]: a filled rectangle, clipped to
    the surface. *)
Definition draw_rect (surface : Surface) (color : Color) (rect : Rect)
  : Surface :=
  fun px => if in_rect rect px && on_screen px then color else surface px.

(** ** class GameObject *)

Module GameObject.

Record t : Type := mk { position : Vec; body_color : Color }.

Definition init (position : option Vec) (body_color : Color) : t :=
  let position :=
    match position with
    | None =>
        let pos_x := (SCREEN_WIDTH / 2) / GRID_SIZE * GRID_SIZE in
        let pos_y := (SCREEN_HEIGHT / 2) / GRID_SIZE * GRID_SIZE in
        (pos_x, pos_y)
    | Some p => p
    end in
  mk position body_color.

End GameObject.

(** ** class Apple(GameObject) *)

Module Apple.

Record t : Type := mk { position : Vec; body_color : Color }.

Definition randomize_position (self : t) : Py t :=
  grid_x <- randint 0 (GRID_WIDTH - 1) ;;
  grid_y <- randint 0 (GRID_HEIGHT - 1) ;;
  ret (mk (grid_x * GRID_SIZE, grid_y * GRID_SIZE) (body_color self)).

Definition init : Py t :=
  let base := GameObject.init None APPLE_COLOR in
  randomize_position
    (mk (GameObject.position base) (GameObject.body_color base)).

Definition draw (self : t) (surface : Surface) : Surface :=
  let rect := mkRect (fst (position self)) (snd (position self))
                GRID_SIZE GRID_SIZE in
  draw_rect surface (body_color self) rect.

End Apple.

(** ** class Snake(GameObject) *)

Module Snake.

Record t : Type := mk {
  position : Vec;
  body_color : Color;
  length : Z;
  positions : list Vec;
  direction : Vec;
  next_direction : option Vec;
  last : option Vec
}.

Definition init : t :=
  let base := GameObject.init None SNAKE_COLOR in
  mk (GameObject.position base) (GameObject.body_color base)
     1 [GameObject.position base] RIGHT None None.

Definition get_head_position (self : t) : Py Vec :=
  first (positions self).

Definition update_direction (self : t) : t :=
  match next_direction self with
  | None => self
  | Some next =>
      let '(cur_dx, cur_dy) := direction self in
      let '(next_dx, next_dy) := next in
      if (cur_dx =? - next_dx) && (cur_dy =? - next_dy) then self
      else mk (position self) (body_color self) (length self)
              (positions self) next None (last self)
  end.

Definition reset (self : t) : Py t :=
  let pos_x := (SCREEN_WIDTH / 2) / GRID_SIZE * GRID_SIZE in
  let pos_y := (SCREEN_HEIGHT / 2) / GRID_SIZE * GRID_SIZE in
  let centre := (pos_x, pos_y) in
  d <- choice [UP; DOWN; LEFT; RIGHT] ;;
  ret (mk centre (body_color self) 1 [centre] d None None).

Definition move (self : t) : Py t :=
  '(head_x, head_y) <- get_head_position self ;;
  let '(dx, dy) := direction self in
  let new_x := (head_x + dx * GRID_SIZE) mod SCREEN_WIDTH in
  let new_y := (head_y + dy * GRID_SIZE) mod SCREEN_HEIGHT in
  let new_head := (new_x, new_y) in
  if contains new_head (skipn 2 (positions self)) then reset self
  else
    let inserted := new_head :: positions self in
    if Z.of_nat (List.length inserted) >? length self then
      '(tail, shorter) <- pop inserted ;;
      ret (mk (position self) (body_color self) (length self)
              shorter (direction self) (next_direction self) (Some tail))
    else
      ret (mk (position self) (body_color self) (length self)
              inserted (direction self) (next_direction self) None).

(** [snake.length += 1], the driver's write to the growth target. *)
Definition grow (self : t) : t :=
  mk (position self) (body_color self) (length self + 1)
     (positions self) (direction self) (next_direction self) (last self).

(** [snake.next_direction = d], the key handler's write. *)
Definition buffer_direction (d : Vec) (self : t) : t :=
  mk (position self) (body_color self) (length self)
     (positions self) (direction self) (Some d) (last self).

Definition draw (self : t) (surface : Surface) : Surface :=
  let surface :=
    match last self with
    | Some erased =>
        let rect := mkRect (fst erased) (snd erased) GRID_SIZE GRID_SIZE in
        draw_rect surface BOARD_BACKGROUND_COLOR rect
    | None => surface
    end in
  fold_left
    (fun surface '(pos_x, pos_y) =>
       let rect := mkRect pos_x pos_y GRID_SIZE GRID_SIZE in
       draw_rect surface (body_color self) rect)
    (positions self) surface.

End Snake.

(** ** Input events and the driver *)

Inductive Key : Type := K_UP | K_DOWN | K_LEFT | K_RIGHT | K_OTHER.

Inductive Event : Type :=
| QUIT
| KEYDOWN (key : Key)
| OTHER_EVENT.

(** [handle_keys], over the events [pygame.event.get()] returned. *)
Fixpoint handle_keys (events : list Event) (snake : Snake.t) : Py Snake.t :=
  match events with
  | [] => ret snake
  | QUIT :: _ => raise SystemExit
  | KEYDOWN key :: rest =>
      handle_keys rest
        match key with
        | K_UP => Snake.buffer_direction UP snake
        | K_DOWN => Snake.buffer_direction DOWN snake
        | K_LEFT => Snake.buffer_direction LEFT snake
        | K_RIGHT => Snake.buffer_direction RIGHT snake
        | K_OTHER => snake
        end
  | OTHER_EVENT :: rest => handle_keys rest snake
  end.

(** The food step of the loop: [if snake.get_head_position() ==
    apple.position: ...]. *)
Definition eat (snake : Snake.t) (apple : Apple.t)
  : Py (Snake.t * Apple.t) :=
  head <- Snake.get_head_position snake ;;
  if vec_eqb head (Apple.position apple) then
    let snake := Snake.grow snake in
    apple <- Apple.randomize_position apple ;;
    ret (snake, apple)
  else ret (snake, apple).

(** One iteration of [while True] in [main]. *)
Definition tick (events : list Event) (st : Snake.t * Apple.t)
  : Py (Snake.t * Apple.t) :=
  let (snake, apple) := st in
  snake <- handle_keys events snake ;;
  let snake := Snake.update_direction snake in
  snake <- Snake.move snake ;;
  eat snake apple.

(** The objects [main] builds before its loop. *)
Definition main_init : Py (Snake.t * Apple.t) :=
  let snake := Snake.init in
  apple <- Apple.init ;;
  ret (snake, apple).

(** [main] over the event batches of its first iterations. *)
Fixpoint main_loop (batches : list (list Event)) (st : Snake.t * Apple.t)
  : Py (Snake.t * Apple.t) :=
  match batches with
  | [] => ret st
  | events :: rest => st' <- tick events st ;; main_loop rest st'
  end.

Definition main (batches : list (list Event)) : Py (Snake.t * Apple.t) :=
  st <- main_init ;; main_loop batches st.

(** One iteration of the loop with what it paints: the tick, then
    [snake.draw(screen)] and [apple.draw(screen)]. *)
Definition frame (events : list Event) (w : Snake.t * Apple.t * Surface)
  : Py (Snake.t * Apple.t * Surface) :=
  let '(st, screen) := w in
  '(snake, apple) <- tick events st ;;
  let screen := Snake.draw snake screen in
  let screen := Apple.draw apple screen in
  ret (snake, apple, screen).

Fixpoint frames (batches : list (list Event))
    (w : Snake.t * Apple.t * Surface) : Py (Snake.t * Apple.t * Surface) :=
  match batches with
  | [] => ret w
  | events :: rest => w' <- frame events w ;; frames rest w'
  end.

(** [main] with its screen, over the event batches of its first
    iterations; [screen] is the window as pygame created it. *)
Definition main_screen (batches : list (list Event)) (screen : Surface)
  : Py (Snake.t * Apple.t * Surface) :=
  let screen := surface_fill screen BOARD_BACKGROUND_COLOR in
  st <- main_init ;; frames batches (st, screen).

(** [snake.move()] called [n] times in a row. *)
Fixpoint move_times (n : nat) (snake : Snake.t) : Py Snake.t :=
  match n with
  | O => ret snake
  | S k => snake <- Snake.move snake ;; move_times k snake
  end.

(** ** Vocabulary of the properties *)

Definition is_direction (d : Vec) : Prop :=
  d = UP \/ d = DOWN \/ d = LEFT \/ d = RIGHT.

Definition opposite (d : Vec) : Vec := (- fst d, - snd d).

Definition perpendicular (d e : Vec) : Prop :=
  fst d * fst e + snd d * snd e = 0.

(** The grid's wrap, as the board contract words it. *)
Definition wrap (coordinate axisLength : Z) : Z := coordinate mod axisLength.

(** One cell from [p] along [d], wrapped on each axis. *)
Definition step_wrapped (p d : Vec) : Vec :=
  (wrap (fst p + fst d * GRID_SIZE) SCREEN_WIDTH,
   wrap (snd p + snd d * GRID_SIZE) SCREEN_HEIGHT).

Definition board_centre : Vec :=
  (GRID_WIDTH / 2 * GRID_SIZE, GRID_HEIGHT / 2 * GRID_SIZE).

Definition in_board (p : Vec) : Prop :=
  0 <= fst p < SCREEN_WIDTH /\ 0 <= snd p < SCREEN_HEIGHT.

Definition grid_aligned (p : Vec) : Prop :=
  (GRID_SIZE | fst p) /\ (GRID_SIZE | snd p).

(** Distance of two coordinates on a circular axis of [n] pixels. *)
Definition axis_dist (a b n : Z) : Z := Z.min ((a - b) mod n) ((b - a) mod n).

(** Two cells one Manhattan step apart on the torus. *)
Definition adjacent (p q : Vec) : Prop :=
  axis_dist (fst p) (fst q) SCREEN_WIDTH
  + axis_dist (snd p) (snd q) SCREEN_HEIGHT = GRID_SIZE.

Fixpoint consecutive_adjacent (body : list Vec) : Prop :=
  match body with
  | p :: (q :: _) as rest => adjacent p q /\ consecutive_adjacent rest
  | _ => True
  end.

(** A body as the data model wants it. *)
Definition body_ok (body : list Vec) : Prop :=
  body <> [] /\ NoDup body /\ consecutive_adjacent body.

(** The head was produced from the neck by one step along [d]. *)
Definition neck_from (d : Vec) (body : list Vec) : Prop :=
  forall h n rest, body = h :: n :: rest -> h = step_wrapped n d.

(** What holds of the snake each time the loop of [main] starts over. *)
Record loop_inv (s : Snake.t) : Prop := {
  li_body : body_ok (Snake.positions s);
  li_dir : is_direction (Snake.direction s);
  li_neck : neck_from (Snake.direction s) (Snake.positions s);
  li_buf : forall p, Snake.next_direction s = Some p -> is_direction p;
  li_len : Z.of_nat (List.length (Snake.positions s)) <= Snake.length s
}.

(** What holds between [update_direction] and [move]: the committed
    direction is not the reverse of the step that made the head. *)
Record mid_inv (s : Snake.t) : Prop := {
  mi_body : body_ok (Snake.positions s);
  mi_dir : is_direction (Snake.direction s);
  mi_neck : exists d, is_direction d
                      /\ neck_from d (Snake.positions s)
                      /\ Snake.direction s <> opposite d;
  mi_buf : forall p, Snake.next_direction s = Some p -> is_direction p;
  mi_len : Z.of_nat (List.length (Snake.positions s)) <= Snake.length s
}.

(** The states of [main] at the top of its loop. *)
Inductive Reachable : Snake.t * Apple.t * RNG -> Prop :=
| reach_init g st g' :
    main_init g = Ok (st, g') -> Reachable (st, g')
| reach_tick st g events st' g' :
    Reachable (st, g) ->
    tick events st g = Ok (st', g') ->
    Reachable (st', g').

(** The direction [reset] installs, as a function of the generator. *)
Definition reset_direction (self : Snake.t) (g : RNG) : option Vec :=
  match Snake.reset self g with
  | Ok (s, _) => Some (Snake.direction s)
  | Raise _ => None
  end.

(** A generator whose draws are the given numbers, then zeros. *)
Definition rng_of (draws : list nat) : RNG :=
  mkRNG (fun i => nth i draws 0%nat) 0.

(** Of the four picks [random.choice] can make in a population of four,
    those on which [reset] installs the direction [d]. *)
Definition picks_giving (self : Snake.t) (d : Vec) : list nat :=
  filter (fun i => match reset_direction self (rng_of [i]) with
                   | Some e => vec_eqb e d
                   | None => false
                   end)
         (seq 0 4).

(** ** The states the methods build *)

Definition DIRECTIONS : list Vec := [UP; DOWN; LEFT; RIGHT].

(** The snake [reset] builds when [choice] returns [d]. *)
Definition fresh_snake (self : Snake.t) (d : Vec) : Snake.t :=
  Snake.mk board_centre (Snake.body_color self) 1 [board_centre] d None None.

(** The snake [move] leaves when it found no collision, [new_head] being the
    cell it computed. *)
Definition advanced (self : Snake.t) (new_head : Vec) : Snake.t :=
  if Z.of_nat (S (List.length (Snake.positions self))) >? Snake.length self
  then Snake.mk (Snake.position self) (Snake.body_color self)
         (Snake.length self) (removelast (new_head :: Snake.positions self))
         (Snake.direction self) (Snake.next_direction self)
         (Some (List.last (new_head :: Snake.positions self) new_head))
  else Snake.mk (Snake.position self) (Snake.body_color self)
         (Snake.length self) (new_head :: Snake.positions self)
         (Snake.direction self) (Snake.next_direction self) None.

(** The apple [randomize_position] builds from two raw draws. *)
Definition placed (self : Apple.t) (raw_x raw_y : nat) : Apple.t :=
  Apple.mk ((0 + Z.of_nat raw_x mod (GRID_WIDTH - 1 - 0 + 1)) * GRID_SIZE,
            (0 + Z.of_nat raw_y mod (GRID_HEIGHT - 1 - 0 + 1)) * GRID_SIZE)
           (Apple.body_color self).

(** All of a snake but its buffered direction. *)
Definition same_but_buffer (s s1 : Snake.t) : Prop :=
  Snake.position s1 = Snake.position s
  /\ Snake.body_color s1 = Snake.body_color s
  /\ Snake.length s1 = Snake.length s
  /\ Snake.positions s1 = Snake.positions s
  /\ Snake.direction s1 = Snake.direction s
  /\ Snake.last s1 = Snake.last s.

(** ** Snake states read as the data model reads them *)

(** The body is non-empty with the head first, holds no cell twice, and
    each cell is one wrapped step from the next. *)
Definition snake_body_ok (s : Snake.t) : Prop :=
  (exists h rest, Snake.positions s = h :: rest
                  /\ forall g, Snake.get_head_position s g = Ok (h, g))
  /\ NoDup (Snake.positions s)
  /\ consecutive_adjacent (Snake.positions s).

(** [move] took its collision branch: it did what [reset] does. *)
Definition move_resets (s : Snake.t) (g : RNG) : Prop :=
  Snake.move s g = Snake.reset s g.

(** ** A game that ends in a self-collision *)

(** Raw draws: three apples in a row right of the centre, a fourth at the
    centre, then the draws of the collision tick. *)
Definition collision_draws : list nat :=
  [17; 12; 18; 12; 19; 12; 16; 12; 3; 5; 5]%nat.

(** Three ticks straight on, then down and left. *)
Definition collision_batches : list (list Event) :=
  [[]; []; []; [KEYDOWN K_DOWN]; [KEYDOWN K_LEFT]].

(** The snake those five ticks leave: four cells in a square. *)
Definition coiled_snake : Snake.t :=
  Snake.mk (320, 240) SNAKE_COLOR 4
    [(360, 260); (380, 260); (380, 240); (360, 240)]
    LEFT None (Some (340, 240)).

Definition centre_apple : Apple.t := Apple.mk (320, 240) APPLE_COLOR.

Definition coiled_rng : RNG := mkRNG (tape (rng_of collision_draws)) 8.

(** What the sixth tick, with the key UP, leaves. *)
Definition restarted_snake : Snake.t :=
  Snake.mk (320, 240) SNAKE_COLOR 2 [(320, 240)] RIGHT None None.

Definition moved_apple : Apple.t := Apple.mk (100, 100) APPLE_COLOR.

Definition restarted_rng : RNG := mkRNG (tape (rng_of collision_draws)) 11.

(** A three-cell snake whose direction points back at its neck. *)
Definition reversing_snake : Snake.t :=
  Snake.mk (320, 240) SNAKE_COLOR 3
    [(100, 100); (120, 100); (140, 100)] RIGHT None None.

(** A one-cell snake on the rightmost column, heading right. *)
Definition edge_snake : Snake.t :=
  Snake.mk (320, 240) SNAKE_COLOR 1 [(620, 240)] RIGHT None None.

(** The apple one cell right of the board centre, and a game whose first
    apple is that one and whose next two draws name the same cell again. *)
Definition ahead_apple : Apple.t := Apple.mk (340, 240) APPLE_COLOR.

Definition replay_draws : list nat := [17; 12; 17; 12]%nat.

Definition ahead_rng : RNG := mkRNG (tape (rng_of replay_draws)) 2.

(** The initial snake after one step to the right. *)
Definition stepped_snake : Snake.t :=
  Snake.mk (320, 240) SNAKE_COLOR 1 [(340, 240)] RIGHT None
    (Some (320, 240)).

(** An apple cell: a multiple of the cell size on each axis, on the board. *)
Definition apple_cell_ok (a : Apple.t) : Prop :=
  exists i j,
    Apple.position a = (i * GRID_SIZE, j * GRID_SIZE)
    /\ 0 <= i < GRID_WIDTH /\ 0 <= j < GRID_HEIGHT
    /\ grid_aligned (Apple.position a) /\ in_board (Apple.position a).

(** ** Vocabulary of the further properties *)

Definition is_quit (event : Event) : bool :=
  match event with QUIT => true | _ => false end.

(** The direction of an arrow-key event. *)
Definition arrow (event : Event) : option Vec :=
  match event with
  | KEYDOWN K_UP => Some UP
  | KEYDOWN K_DOWN => Some DOWN
  | KEYDOWN K_LEFT => Some LEFT
  | KEYDOWN K_RIGHT => Some RIGHT
  | _ => None
  end.

(** The direction of the last arrow-key event of a batch. *)
Fixpoint last_arrow (events : list Event) : option Vec :=
  match events with
  | [] => None
  | event :: rest =>
      match last_arrow rest with
      | Some d => Some d
      | None => arrow event
      end
  end.

(** A cell of the grid inside the board. *)
Definition on_grid (p : Vec) : Prop := in_board p /\ grid_aligned p.

(** Each cell is one wrapped step from the next, along a unit vector. *)
Fixpoint stepwise (body : list Vec) : Prop :=
  match body with
  | p :: (q :: _) as rest =>
      (exists d, is_direction d /\ p = step_wrapped q d) /\ stepwise rest
  | _ => True
  end.

(** What else holds of the snake each time the loop starts over. *)
Record play_inv (s : Snake.t) : Prop := {
  pi_grid : Forall on_grid (Snake.positions s);
  pi_last : forall c, Snake.last s = Some c ->
                      on_grid c /\ ~ In c (Snake.positions s);
  pi_gap : Snake.length s <= Z.of_nat (List.length (Snake.positions s)) + 1;
  pi_steps : stepwise (Snake.positions s);
  pi_fixed : Snake.position s = board_centre
             /\ Snake.body_color s = SNAKE_COLOR
}.

(** The number of steps along [d] after which the board repeats: its
    height in cells for a vertical direction, its width otherwise. *)
Definition lap_length (d : Vec) : nat :=
  if fst d =? 0 then Z.to_nat GRID_HEIGHT else Z.to_nat GRID_WIDTH.

(** The one-cell snake [move] makes of a one-cell snake at [p]. *)
Definition slid (s : Snake.t) (p : Vec) : Snake.t :=
  Snake.mk (Snake.position s) (Snake.body_color s) 1
    [step_wrapped p (Snake.direction s)] (Snake.direction s)
    (Snake.next_direction s) (Some p).

(** The coiled snake painted on a black window. *)
Definition coiled_screen : Surface :=
  Snake.draw coiled_snake (fun _ => BOARD_BACKGROUND_COLOR).

(** A screen whose window shows nothing but the three colours of the
    game. *)
Definition three_colours (screen : Surface) : Prop :=
  forall px, on_screen px = true ->
             screen px = BOARD_BACKGROUND_COLOR
             \/ screen px = SNAKE_COLOR
             \/ screen px = APPLE_COLOR.

(** Every cell of the board, column by column. *)
Definition all_cells : list Vec :=
  flat_map
    (fun i => map (fun j => (Z.of_nat i * GRID_SIZE, Z.of_nat j * GRID_SIZE))
                  (seq 0 (Z.to_nat GRID_HEIGHT)))
    (seq 0 (Z.to_nat GRID_WIDTH)).

(** The square of pixels of the cell at [p]. *)
Definition cell_rect (p : Vec) : Rect :=
  mkRect (fst p) (snd p) GRID_SIZE GRID_SIZE.

(** The pixel [px] of the window lies in the cell at [p]. *)
Definition covers (p px : Vec) : bool :=
  in_rect (cell_rect p) px && on_screen px.

(** ** Basic facts *)

Lemma vec_eqb_eq (p q : Vec) : vec_eqb p q = true <-> p = q.
Proof.
  destruct p as [a b], q as [c d]; unfold vec_eqb; simpl.
  rewrite andb_true_iff, !Z.eqb_eq. split.
  - intros [-> ->]; reflexivity.
  - intros E; injection E; auto.
Qed.

Lemma vec_eqb_neq (p q : Vec) : vec_eqb p q = false <-> p <> q.
Proof.
  rewrite <- vec_eqb_eq. destruct (vec_eqb p q); split; congruence.
Qed.

Lemma contains_In (x : Vec) (xs : list Vec) : contains x xs = true <-> In x xs.
Proof.
  unfold contains. rewrite existsb_exists. split.
  - intros (y & Hy & E). apply vec_eqb_eq in E. subst; assumption.
  - intros H. exists x. split; [assumption | now apply vec_eqb_eq].
Qed.

Lemma contains_not_In (x : Vec) (xs : list Vec) :
  contains x xs = false <-> ~ In x xs.
Proof.
  rewrite <- contains_In. destruct (contains x xs); split; congruence.
Qed.

Lemma In_skipn_nth_error {A} (x : A) (n : nat) (xs : list A) :
  In x (skipn n xs) <->
  exists i, (n <= i)%nat /\ nth_error xs i = Some x.
Proof.
  revert xs. induction n as [|n IH]; intros xs; simpl.
  - split.
    + intros H. apply In_nth_error in H. destruct H as [i Hi].
      exists i. split; [lia | assumption].
    + intros (i & _ & Hi). eapply nth_error_In; eassumption.
  - destruct xs as [|y ys].
    + split; [intros [] |].
      intros (i & _ & Hi). destruct i; discriminate.
    + rewrite IH. split.
      * intros (i & Hle & Hi). exists (S i). split; [lia | assumption].
      * intros (i & Hle & Hi). destruct i as [|i]; [lia |].
        exists i. split; [lia | assumption].
Qed.

Lemma In_removelast {A} (x : A) (xs : list A) :
  In x (removelast xs) -> In x xs.
Proof.
  induction xs as [|y [|z zs] IH]; simpl; intros H; auto.
  destruct H as [H | H]; [left; assumption | right; apply IH, H].
Qed.

Lemma NoDup_removelast {A} (xs : list A) : NoDup xs -> NoDup (removelast xs).
Proof.
  induction 1 as [|y ys Hy Hnd IH]; simpl; [constructor |].
  destruct ys as [|z zs]; [constructor |].
  constructor; [| exact IH].
  intros Hin. apply Hy. apply In_removelast. exact Hin.
Qed.

Lemma consecutive_adjacent_removelast (xs : list Vec) :
  consecutive_adjacent xs -> consecutive_adjacent (removelast xs).
Proof.
  induction xs as [|p [|q [|r rs]] IH]; try (simpl; tauto).
  intros [Hpq Hrest].
  change (removelast (p :: q :: r :: rs))
    with (p :: q :: removelast (r :: rs)).
  split; [assumption |]. apply IH. exact Hrest.
Qed.

Lemma length_removelast_cons {A} (x : A) (xs : list A) :
  List.length (removelast (x :: xs)) = List.length xs.
Proof.
  revert x. induction xs as [|y ys IH]; intros x; [reflexivity |].
  change (removelast (x :: y :: ys)) with (x :: removelast (y :: ys)).
  change (List.length (x :: removelast (y :: ys)))
    with (S (List.length (removelast (y :: ys)))).
  rewrite IH. reflexivity.
Qed.

Lemma is_direction_cases (d : Vec) :
  is_direction d ->
  d = (0, -1) \/ d = (0, 1) \/ d = (-1, 0) \/ d = (1, 0).
Proof. exact (fun H => H). Qed.

Ltac each_direction H :=
  apply is_direction_cases in H;
  destruct H as [H | [H | [H | H]]]; subst.

Ltac wrap_arith :=
  unfold step_wrapped, wrap, adjacent, axis_dist, in_board,
    SCREEN_WIDTH, SCREEN_HEIGHT, GRID_SIZE in *;
  simpl fst in *; simpl snd in *.

Lemma step_wrapped_in_board (p d : Vec) : in_board (step_wrapped p d).
Proof.
  wrap_arith. split; apply Z.mod_pos_bound; lia.
Qed.

Lemma step_wrapped_adjacent (p d : Vec) :
  is_direction d -> adjacent (step_wrapped p d) p.
Proof.
  intros Hd. destruct p as [x y]. each_direction Hd; wrap_arith;
    Z.div_mod_to_equations; lia.
Qed.

Lemma step_wrapped_moves (p d : Vec) :
  is_direction d -> step_wrapped p d <> p.
Proof.
  intros Hd E. destruct p as [x y].
  each_direction Hd; wrap_arith; injection E; intros;
    Z.div_mod_to_equations; lia.
Qed.

Lemma step_wrapped_no_return (n d e : Vec) :
  is_direction d -> is_direction e -> e <> opposite d ->
  step_wrapped (step_wrapped n d) e <> n.
Proof.
  intros Hd He Hopp E. destruct n as [x y].
  each_direction Hd; each_direction He;
    try (exfalso; apply Hopp; reflexivity);
    wrap_arith; injection E; intros; Z.div_mod_to_equations; lia.
Qed.

(** ** The methods, equation by equation *)

Lemma reset_eq (self : Snake.t) (g : RNG) :
  Snake.reset self g =
  Ok (fresh_snake self
        (nth (choice_index 4 (tape g (cursor g))) DIRECTIONS UP),
      mkRNG (tape g) (S (cursor g))).
Proof. reflexivity. Qed.

Lemma move_eq (self : Snake.t) (h : Vec) (rest : list Vec) (g : RNG) :
  Snake.positions self = h :: rest ->
  Snake.move self g =
  if contains (step_wrapped h (Snake.direction self))
       (skipn 2 (Snake.positions self))
  then Snake.reset self g
  else Ok (advanced self (step_wrapped h (Snake.direction self)), g).
Proof.
  intros Hpos. unfold advanced.
  destruct (Z.of_nat (S (List.length (Snake.positions self)))
            >? Snake.length self) eqn:Hlen;
    unfold Snake.move, Snake.get_head_position, bind;
    rewrite Hpos; destruct h as [hx hy];
    destruct (Snake.direction self) as [dx dy];
    unfold first, ret, step_wrapped, wrap, pop;
    cbv beta iota zeta; simpl fst; simpl snd;
    (destruct (contains _ _); [reflexivity |]);
    match goal with
    | |- (if ?b then _ else _) _ = _ =>
        replace b with (Z.of_nat (S (List.length (Snake.positions self)))
                        >? Snake.length self)
          by (rewrite Hpos; reflexivity)
    end;
    rewrite Hlen; reflexivity.
Qed.

Lemma randomize_position_eq (self : Apple.t) (g : RNG) :
  Apple.randomize_position self g =
  Ok (placed self (tape g (cursor g)) (tape g (S (cursor g))),
      mkRNG (tape g) (S (S (cursor g)))).
Proof. reflexivity. Qed.

Lemma eat_eq (s : Snake.t) (a : Apple.t) (h : Vec) (rest : list Vec)
    (g : RNG) :
  Snake.positions s = h :: rest ->
  eat s a g =
  if vec_eqb h (Apple.position a)
  then Ok (Snake.grow s,
           placed a (tape g (cursor g)) (tape g (S (cursor g))),
           mkRNG (tape g) (S (S (cursor g))))
  else Ok (s, a, g).
Proof.
  intros Hpos. unfold eat, Snake.get_head_position, bind. rewrite Hpos.
  unfold first, ret. destruct (vec_eqb h (Apple.position a)); reflexivity.
Qed.

Lemma tick_eq (events : list Event) (s : Snake.t) (a : Apple.t) (g : RNG) :
  tick events (s, a) g =
  match handle_keys events s g with
  | Ok (s1, g1) =>
      match Snake.move (Snake.update_direction s1) g1 with
      | Ok (s3, g3) => eat s3 a g3
      | Raise e => Raise e
      end
  | Raise e => Raise e
  end.
Proof.
  unfold tick, bind. destruct (handle_keys events s g) as [[s1 g1] | e];
    reflexivity.
Qed.

Lemma handle_keys_Ok (events : list Event) :
  forall s g s1 g1,
    handle_keys events s g = Ok (s1, g1) ->
    g1 = g
    /\ same_but_buffer s s1
    /\ (Snake.next_direction s1 = Snake.next_direction s
        \/ exists d, is_direction d /\ Snake.next_direction s1 = Some d).
Proof.
  unfold same_but_buffer, is_direction.
  induction events as [|event rest IH]; intros s g s1 g1 H.
  - injection H as <- <-. tauto.
  - destruct event as [| key |]; simpl in H.
    + discriminate H.
    + apply IH in H. destruct H as (Hg & Hsame & Hbuf).
      split; [exact Hg |].
      destruct key; simpl in Hsame, Hbuf; (split; [exact Hsame |]);
        destruct Hbuf as [Hbuf | Hbuf]; try (right; exact Hbuf);
        try (left; exact Hbuf); right; eexists; (split; [| exact Hbuf]);
        tauto.
    + apply IH in H. exact H.
Qed.

(** ** The invariant of the loop *)

Lemma is_direction_choice (raw : nat) :
  is_direction (nth (choice_index 4 raw) DIRECTIONS UP).
Proof.
  unfold choice_index, is_direction.
  pose proof (Nat.mod_upper_bound raw 4 ltac:(discriminate)) as Hlt.
  destruct (Nat.modulo raw 4) as [|[|[|[|k]]]]; simpl; auto.
  exfalso. lia.
Qed.

Lemma not_self_opposite (d : Vec) : is_direction d -> d <> opposite d.
Proof. intros Hd. each_direction Hd; discriminate. Qed.

Lemma body_ok_singleton (p : Vec) : body_ok [p].
Proof.
  repeat split; [discriminate |].
  constructor; [intros [] | constructor].
Qed.

Lemma neck_from_singleton (d p : Vec) : neck_from d [p].
Proof. intros h n rest E. discriminate E. Qed.

Lemma loop_inv_fresh (self : Snake.t) (d : Vec) :
  is_direction d -> loop_inv (fresh_snake self d).
Proof.
  intros Hd. constructor; simpl.
  - apply body_ok_singleton.
  - exact Hd.
  - apply neck_from_singleton.
  - discriminate.
  - lia.
Qed.

Lemma loop_inv_init : loop_inv Snake.init.
Proof.
  constructor; simpl.
  - apply body_ok_singleton.
  - unfold is_direction; auto.
  - apply neck_from_singleton.
  - discriminate.
  - lia.
Qed.

Lemma loop_inv_handle_keys (events : list Event) (s s1 : Snake.t)
    (g g1 : RNG) :
  loop_inv s -> handle_keys events s g = Ok (s1, g1) ->
  loop_inv s1 /\ g1 = g.
Proof.
  intros [Hb Hd Hn Hbuf Hl] H. apply handle_keys_Ok in H.
  destruct H as (-> & (_ & _ & El & Ep & Ed & _) & Hnext).
  split; [| reflexivity]. constructor; rewrite ?Ep, ?Ed, ?El; auto.
  intros p Hp. destruct Hnext as [E | (d & Hdir & E)]; rewrite E in Hp.
  - apply Hbuf; assumption.
  - injection Hp as <-. exact Hdir.
Qed.

Lemma loop_inv_mid_inv (s : Snake.t) : loop_inv s -> mid_inv s.
Proof.
  intros [Hb Hd Hn Hbuf Hl]. constructor; auto.
  exists (Snake.direction s). auto using not_self_opposite.
Qed.

Lemma update_direction_mid_inv (s : Snake.t) :
  loop_inv s -> mid_inv (Snake.update_direction s).
Proof.
  intros Hinv. pose proof Hinv as [Hb Hd Hn Hbuf Hl].
  unfold Snake.update_direction.
  destruct (Snake.next_direction s) as [[nx ny] |] eqn:Hnext;
    [| apply loop_inv_mid_inv; exact Hinv].
  destruct (Snake.direction s) as [cx cy] eqn:Hdir.
  destruct ((cx =? - nx) && (cy =? - ny)) eqn:Htest;
    [apply loop_inv_mid_inv; exact Hinv |].
  constructor; simpl; auto.
  - exists (cx, cy). split; [exact Hd | split; [exact Hn |]].
    unfold opposite. simpl. intros E. injection E as -> ->.
    rewrite !Z.opp_involutive, !Z.eqb_refl in Htest. discriminate Htest.
  - discriminate.
Qed.

Lemma new_head_fresh (s : Snake.t) (h : Vec) (rest : list Vec) :
  mid_inv s -> Snake.positions s = h :: rest ->
  contains (step_wrapped h (Snake.direction s))
    (skipn 2 (Snake.positions s)) = false ->
  ~ In (step_wrapped h (Snake.direction s)) (Snake.positions s).
Proof.
  intros [Hb Hd (d & Hdd & Hn & Hopp) _ _] Hpos Hc Hin.
  rewrite Hpos in Hc, Hin, Hn. apply contains_not_In in Hc.
  destruct Hin as [E | Hin].
  - symmetry in E. revert E. apply step_wrapped_moves. exact Hd.
  - destruct rest as [|n rest']; [destruct Hin |].
    destruct Hin as [E | Hin].
    + specialize (Hn h n rest' eq_refl). subst h.
      symmetry in E. revert E. apply step_wrapped_no_return; assumption.
    + apply Hc. exact Hin.
Qed.

Lemma body_ok_cons (new_head h : Vec) (rest : list Vec) :
  body_ok (h :: rest) -> adjacent new_head h ->
  ~ In new_head (h :: rest) ->
  body_ok (new_head :: h :: rest).
Proof.
  intros (_ & Hnd & Hadj) Hstep Hfresh. repeat split.
  - discriminate.
  - constructor; assumption.
  - assumption.
  - assumption.
Qed.

Lemma body_ok_removelast (new_head h : Vec) (rest : list Vec) :
  body_ok (new_head :: h :: rest) ->
  body_ok (removelast (new_head :: h :: rest)).
Proof.
  intros (_ & Hnd & Hadj). repeat split.
  - change (removelast (new_head :: h :: rest))
      with (new_head :: removelast (h :: rest)). discriminate.
  - apply NoDup_removelast. exact Hnd.
  - apply consecutive_adjacent_removelast. exact Hadj.
Qed.

Lemma neck_of_removelast (new_head h : Vec) (rest : list Vec) (d : Vec) :
  new_head = step_wrapped h d ->
  neck_from d (removelast (new_head :: h :: rest)).
Proof.
  intros E h' n' r Hl.
  change (removelast (new_head :: h :: rest))
    with (new_head :: removelast (h :: rest)) in Hl.
  destruct rest as [|x xs]; [discriminate Hl |].
  change (removelast (h :: x :: xs)) with (h :: removelast (x :: xs)) in Hl.
  injection Hl as <- <- _. exact E.
Qed.

Lemma advanced_loop_inv (s : Snake.t) (h : Vec) (rest : list Vec) :
  mid_inv s -> Snake.positions s = h :: rest ->
  ~ In (step_wrapped h (Snake.direction s)) (Snake.positions s) ->
  loop_inv (advanced s (step_wrapped h (Snake.direction s))).
Proof.
  intros [Hb Hd _ Hbuf Hl] Hpos Hfresh.
  assert (Hcons : body_ok (step_wrapped h (Snake.direction s) :: h :: rest)).
  { rewrite Hpos in Hb, Hfresh.
    apply body_ok_cons; auto using step_wrapped_adjacent. }
  unfold advanced.
  destruct (Z.of_nat (S (List.length (Snake.positions s))) >? Snake.length s)
    eqn:Htest; constructor;
    cbn [Snake.positions Snake.direction Snake.length Snake.next_direction];
    rewrite ?Hpos; try assumption.
  - apply body_ok_removelast. exact Hcons.
  - apply neck_of_removelast. reflexivity.
  - rewrite length_removelast_cons. rewrite <- Hpos. exact Hl.
  - intros h' n' r E. injection E as <- <- _. reflexivity.
  - rewrite Z.gtb_ltb, Z.ltb_ge, Hpos in Htest. exact Htest.
Qed.

Lemma move_loop_inv (s : Snake.t) (g : RNG) :
  mid_inv s ->
  exists s' g', Snake.move s g = Ok (s', g') /\ loop_inv s'.
Proof.
  intros Hinv. pose proof (mi_body s Hinv) as (Hne & _).
  destruct (Snake.positions s) as [|h rest] eqn:Hpos; [congruence |].
  rewrite (move_eq s h rest g Hpos).
  destruct (contains _ _) eqn:Hc.
  - rewrite reset_eq. eexists _, _. split; [reflexivity |].
    apply loop_inv_fresh, is_direction_choice.
  - eexists _, _. split; [reflexivity |].
    apply (advanced_loop_inv s h rest Hinv Hpos).
    apply (new_head_fresh s h rest Hinv Hpos Hc).
Qed.

Lemma grow_loop_inv (s : Snake.t) : loop_inv s -> loop_inv (Snake.grow s).
Proof.
  intros [Hb Hd Hn Hbuf Hl]. constructor; simpl; auto. lia.
Qed.

Lemma eat_loop_inv (s : Snake.t) (a : Apple.t) (g : RNG) :
  loop_inv s ->
  exists s' a' g', eat s a g = Ok (s', a', g') /\ loop_inv s'
                   /\ Snake.positions s' = Snake.positions s.
Proof.
  intros Hinv. pose proof (li_body s Hinv) as (Hne & _).
  destruct (Snake.positions s) as [|h rest] eqn:Hpos; [congruence |].
  rewrite (eat_eq s a h rest g Hpos).
  destruct (vec_eqb h (Apple.position a)); eexists _, _, _;
    (split; [reflexivity |]).
  - split; [apply grow_loop_inv; exact Hinv | simpl; auto].
  - split; [exact Hinv | auto].
Qed.

Lemma tick_loop_inv (events : list Event) (s s' : Snake.t) (a a' : Apple.t)
    (g g' : RNG) :
  loop_inv s -> tick events (s, a) g = Ok (s', a', g') -> loop_inv s'.
Proof.
  intros Hinv H. rewrite tick_eq in H.
  destruct (handle_keys events s g) as [[s1 g1] | e] eqn:Hkeys;
    [| discriminate H].
  destruct (loop_inv_handle_keys events s s1 g g1 Hinv Hkeys) as [H1 ->].
  destruct (move_loop_inv (Snake.update_direction s1) g
              (update_direction_mid_inv s1 H1)) as (s3 & g3 & Hmove & H3).
  rewrite Hmove in H.
  destruct (eat_loop_inv s3 a g3 H3) as (s4 & a4 & g4 & Heat & H4 & _).
  rewrite Heat in H. injection H as <- _ _. exact H4.
Qed.

Lemma Reachable_loop_inv (st : Snake.t * Apple.t) (g : RNG) :
  Reachable (st, g) -> loop_inv (fst st).
Proof.
  intros H. remember (st, g) as w eqn:Ew. revert st g Ew.
  induction H as [g0 st0 g0' Hinit | [s a] g0 events [s' a'] g0' Hreach IH Htick];
    intros st g Ew; injection Ew as <- <-.
  - unfold main_init, Apple.init, bind in Hinit.
    rewrite randomize_position_eq in Hinit.
    injection Hinit as <- _. exact loop_inv_init.
  - simpl. eapply tick_loop_inv; [apply (IH (s, a) g0 eq_refl) | exact Htick].
Qed.

Lemma main_loop_Reachable (batches : list (list Event)) :
  forall st g st' g',
    Reachable (st, g) -> main_loop batches st g = Ok (st', g') ->
    Reachable (st', g').
Proof.
  induction batches as [|events rest IH]; intros st g st' g' Hreach Hrun.
  - injection Hrun as <- <-. exact Hreach.
  - simpl in Hrun. unfold bind in Hrun.
    destruct (tick events st g) as [[st1 g1] | e] eqn:Htick;
      [| discriminate Hrun].
    apply (IH st1 g1 st' g'); [| exact Hrun].
    apply (reach_tick st g events st1 g1 Hreach Htick).
Qed.

Lemma main_Reachable (batches : list (list Event)) (g : RNG)
    (st : Snake.t * Apple.t) (g' : RNG) :
  main batches g = Ok (st, g') -> Reachable (st, g').
Proof.
  unfold main, bind. intros Hrun.
  destruct (main_init g) as [[st0 g0] | e] eqn:Hinit; [| discriminate Hrun].
  apply (main_loop_Reachable batches st0 g0 st g'); [| exact Hrun].
  apply (reach_init g st0 g0 Hinit).
Qed.

Lemma coiled_Reachable : Reachable (coiled_snake, centre_apple, coiled_rng).
Proof.
  apply (main_Reachable collision_batches (rng_of collision_draws)).
  reflexivity.
Qed.

(** ** When [move] resets, and what a tick is made of *)

Lemma move_resets_iff (s : Snake.t) (h : Vec) (rest : list Vec) (g : RNG) :
  Snake.positions s = h :: rest ->
  move_resets s g <->
  contains (step_wrapped h (Snake.direction s))
    (skipn 2 (Snake.positions s)) = true.
Proof.
  intros Hpos. unfold move_resets. rewrite (move_eq s h rest g Hpos).
  destruct (contains _ _); split; auto; [| discriminate].
  rewrite reset_eq. intros E. injection E as _ Eg.
  apply (f_equal cursor) in Eg. simpl in Eg. lia.
Qed.

Lemma update_direction_keeps (s : Snake.t) :
  Snake.length (Snake.update_direction s) = Snake.length s
  /\ Snake.positions (Snake.update_direction s) = Snake.positions s.
Proof.
  unfold Snake.update_direction.
  destruct (Snake.next_direction s) as [[nx ny] |]; [| auto].
  destruct (Snake.direction s) as [cx cy].
  destruct ((cx =? - nx) && (cy =? - ny)); auto.
Qed.

Lemma advanced_head (s : Snake.t) (new_head h : Vec) (rest : list Vec) :
  Snake.positions s = h :: rest ->
  exists tl, Snake.positions (advanced s new_head) = new_head :: tl.
Proof.
  intros Hpos. unfold advanced. rewrite Hpos.
  destruct (_ >? _); cbn [Snake.positions]; [| eauto].
  change (removelast (new_head :: h :: rest))
    with (new_head :: removelast (h :: rest)). eauto.
Qed.

Lemma advanced_length (s : Snake.t) (new_head : Vec) :
  Snake.length (advanced s new_head) = Snake.length s.
Proof. unfold advanced. destruct (_ >? _); reflexivity. Qed.

(** A tick that returns went through the key handler without [QUIT], found
    a head, and then either reset or advanced before the food step. *)
Lemma tick_cases (events : list Event) (s s' : Snake.t) (a a' : Apple.t)
    (g g' : RNG) :
  tick events (s, a) g = Ok (s', a', g') ->
  exists s1 h rest,
    handle_keys events s g = Ok (s1, g)
    /\ Snake.positions (Snake.update_direction s1) = h :: rest
    /\ ((move_resets (Snake.update_direction s1) g
         /\ exists s3 g3,
              Snake.reset (Snake.update_direction s1) g = Ok (s3, g3)
              /\ Snake.move (Snake.update_direction s1) g = Ok (s3, g3)
              /\ eat s3 a g3 = Ok (s', a', g'))
        \/ (~ move_resets (Snake.update_direction s1) g
            /\ Snake.move (Snake.update_direction s1) g
               = Ok (advanced (Snake.update_direction s1)
                       (step_wrapped h
                          (Snake.direction (Snake.update_direction s1))), g)
            /\ eat (advanced (Snake.update_direction s1)
                      (step_wrapped h
                         (Snake.direction (Snake.update_direction s1))))
                 a g = Ok (s', a', g'))).
Proof.
  intros Htick. rewrite tick_eq in Htick.
  destruct (handle_keys events s g) as [[s1 g1] | e] eqn:Hkeys;
    [| discriminate Htick].
  destruct (handle_keys_Ok events s g s1 g1 Hkeys) as (-> & _ & _).
  exists s1.
  destruct (Snake.positions (Snake.update_direction s1)) as [|h rest] eqn:Hpos.
  { unfold Snake.move, Snake.get_head_position, bind in Htick.
    rewrite Hpos in Htick. discriminate Htick. }
  exists h, rest. split; [reflexivity | split; [reflexivity |]].
  pose proof (move_resets_iff _ h rest g Hpos) as Hiff.
  pose proof (move_eq _ h rest g Hpos) as Hmove.
  destruct (contains _ _) eqn:Hc.
  - left. split; [apply Hiff; reflexivity |].
    rewrite Hmove in Htick |- *. rewrite reset_eq in Htick |- *.
    eexists _, _. repeat split. exact Htick.
  - right. split.
    + intros Hr. apply Hiff in Hr. discriminate Hr.
    + rewrite Hmove in Htick. split; [exact Hmove | exact Htick].
Qed.

(** ** The claims *)

(** C1, as stated, fails.  After five ticks of a real game the snake is a
    square of four cells and the apple lies on the board centre; on the next
    tick the key UP sends the head into its own tail, [move] resets, and the
    driver's food step still runs: the reset head is on the apple, so the
    growth target goes from 1 to 2 and the apple is placed elsewhere. *)
Lemma reset_tick_still_eats :
  Reachable (coiled_snake, centre_apple, coiled_rng)
  /\ handle_keys [KEYDOWN K_UP] coiled_snake coiled_rng
     = Ok (Snake.buffer_direction UP coiled_snake, coiled_rng)
  /\ move_resets
       (Snake.update_direction (Snake.buffer_direction UP coiled_snake))
       coiled_rng
  /\ tick [KEYDOWN K_UP] (coiled_snake, centre_apple) coiled_rng
     = Ok (restarted_snake, moved_apple, restarted_rng)
  /\ Snake.length restarted_snake = 2
  /\ Apple.position centre_apple = (320, 240)
  /\ Apple.position moved_apple = (100, 100).
Proof.
  split; [exact coiled_Reachable |].
  unfold move_resets. repeat split.
Qed.

(** C1 (amended): when [move] detects a self-collision it does what [reset]
    does and nothing else, and the driver then runs its food step on the
    reset snake, whose head is the board centre.  If the apple is not on the
    centre the tick ends with the reset snake (growth target 1) and the
    apple untouched; if it is on the centre the growth target becomes 2 and
    the apple is placed anew. *)
Theorem reset_tick_food_step (events : list Event) (s s1 : Snake.t)
    (a : Apple.t) (g : RNG) :
  handle_keys events s g = Ok (s1, g) ->
  move_resets (Snake.update_direction s1) g ->
  exists s3 g3,
    Snake.reset (Snake.update_direction s1) g = Ok (s3, g3)
    /\ Snake.move (Snake.update_direction s1) g = Ok (s3, g3)
    /\ Snake.positions s3 = [board_centre]
    /\ Snake.length s3 = 1
    /\ (Apple.position a <> board_centre ->
        tick events (s, a) g = Ok (s3, a, g3))
    /\ (Apple.position a = board_centre ->
        exists a' g',
          Apple.randomize_position a g3 = Ok (a', g')
          /\ tick events (s, a) g = Ok (Snake.grow s3, a', g')
          /\ Snake.length (Snake.grow s3) = 2).
Proof.
  intros Hkeys Hreset. rewrite tick_eq, Hkeys.
  unfold move_resets in Hreset. rewrite Hreset, reset_eq.
  set (s3 := fresh_snake _ _). set (g3 := mkRNG _ _). exists s3, g3.
  split; [reflexivity |]. split; [reflexivity |].
  split; [reflexivity |]. split; [reflexivity |].
  rewrite (eat_eq s3 a board_centre [] g3 eq_refl). split.
  - intros Hne. apply not_eq_sym, vec_eqb_neq in Hne. rewrite Hne.
    reflexivity.
  - intros He. symmetry in He. apply vec_eqb_eq in He. rewrite He.
    rewrite randomize_position_eq. eexists _, _. repeat split.
Qed.

Lemma reset_tick_food_step_witness :
  exists s3 g3,
    Snake.reset (Snake.update_direction
                   (Snake.buffer_direction UP coiled_snake)) coiled_rng
    = Ok (s3, g3)
    /\ Snake.move (Snake.update_direction
                     (Snake.buffer_direction UP coiled_snake)) coiled_rng
       = Ok (s3, g3)
    /\ Snake.positions s3 = [board_centre]
    /\ Snake.length s3 = 1
    /\ (Apple.position centre_apple <> board_centre ->
        tick [KEYDOWN K_UP] (coiled_snake, centre_apple) coiled_rng
        = Ok (s3, centre_apple, g3))
    /\ (Apple.position centre_apple = board_centre ->
        exists a' g',
          Apple.randomize_position centre_apple g3 = Ok (a', g')
          /\ tick [KEYDOWN K_UP] (coiled_snake, centre_apple) coiled_rng
             = Ok (Snake.grow s3, a', g')
          /\ Snake.length (Snake.grow s3) = 2).
Proof.
  apply (reset_tick_food_step [KEYDOWN K_UP] coiled_snake
           (Snake.buffer_direction UP coiled_snake) centre_apple coiled_rng).
  - reflexivity.
  - reflexivity.
Defined.

(** C2, as stated, fails: the first key of a game being LEFT, the opposite
    of the initial RIGHT, the commit keeps the direction and the buffer
    still holds LEFT afterwards. *)
Lemma opposite_buffer_not_cleared :
  handle_keys [KEYDOWN K_LEFT] Snake.init (rng_of [])
  = Ok (Snake.buffer_direction LEFT Snake.init, rng_of [])
  /\ LEFT = opposite (Snake.direction (Snake.buffer_direction LEFT Snake.init))
  /\ Snake.direction
       (Snake.update_direction (Snake.buffer_direction LEFT Snake.init))
     = RIGHT
  /\ Snake.next_direction
       (Snake.update_direction (Snake.buffer_direction LEFT Snake.init))
     = Some LEFT
  /\ Snake.next_direction
       (Snake.update_direction (Snake.buffer_direction LEFT Snake.init))
     <> None.
Proof. repeat split. discriminate. Qed.

(** C2 (amended): if the buffered direction is the exact opposite of the
    current one, [update_direction] changes nothing at all: the direction
    stays and the buffered value stays in [next_direction], where the next
    commit rejects it again. *)
Theorem update_direction_opposite (self : Snake.t) (p : Vec) :
  Snake.next_direction self = Some p ->
  p = opposite (Snake.direction self) ->
  Snake.update_direction self = self
  /\ Snake.direction (Snake.update_direction self) = Snake.direction self
  /\ Snake.next_direction (Snake.update_direction self) = Some p
  /\ Snake.update_direction (Snake.update_direction self) = self.
Proof.
  intros Hnext Hopp.
  assert (E : Snake.update_direction self = self).
  { unfold Snake.update_direction. rewrite Hnext.
    destruct (Snake.direction self) as [cx cy]. subst p.
    unfold opposite. simpl.
    rewrite !Z.opp_involutive, !Z.eqb_refl. reflexivity. }
  rewrite !E. auto.
Qed.

Lemma update_direction_opposite_witness :
  Snake.update_direction (Snake.buffer_direction LEFT Snake.init)
  = Snake.buffer_direction LEFT Snake.init
  /\ Snake.direction
       (Snake.update_direction (Snake.buffer_direction LEFT Snake.init))
     = Snake.direction (Snake.buffer_direction LEFT Snake.init)
  /\ Snake.next_direction
       (Snake.update_direction (Snake.buffer_direction LEFT Snake.init))
     = Some LEFT
  /\ Snake.update_direction
       (Snake.update_direction (Snake.buffer_direction LEFT Snake.init))
     = Snake.buffer_direction LEFT Snake.init.
Proof.
  apply (update_direction_opposite
           (Snake.buffer_direction LEFT Snake.init) LEFT);
    reflexivity.
Defined.

(** C3, as stated, fails in its second half: in the game above the growth
    target is 4 before the colliding tick and 2 after it. *)
Lemma growth_target_drops_on_reset :
  Reachable (coiled_snake, centre_apple, coiled_rng)
  /\ tick [KEYDOWN K_UP] (coiled_snake, centre_apple) coiled_rng
     = Ok (restarted_snake, moved_apple, restarted_rng)
  /\ Snake.length coiled_snake = 4
  /\ Snake.length restarted_snake = 2
  /\ Snake.length restarted_snake < Snake.length coiled_snake.
Proof.
  split; [exact coiled_Reachable |]. repeat split.
Qed.

(** C3 (amended): at the top of every iteration of the loop the body is no
    longer than the growth target, which is at least 1.  Over a tick in
    which [move] does not reset, the growth target stays or goes up by one;
    on a tick in which [move] resets it restarts from 1 (and is 2 if the
    food step fires on the reset head). *)
Theorem length_within_growth_target (events : list Event)
    (st st' : Snake.t * Apple.t) (g g' : RNG) :
  Reachable (st, g) ->
  tick events st g = Ok (st', g') ->
  Z.of_nat (List.length (Snake.positions (fst st))) <= Snake.length (fst st)
  /\ Z.of_nat (List.length (Snake.positions (fst st')))
     <= Snake.length (fst st')
  /\ 1 <= Snake.length (fst st')
  /\ exists s1,
       handle_keys events (fst st) g = Ok (s1, g)
       /\ (move_resets (Snake.update_direction s1) g ->
           Snake.length (fst st') = 1 \/ Snake.length (fst st') = 2)
       /\ (~ move_resets (Snake.update_direction s1) g ->
           Snake.length (fst st) <= Snake.length (fst st')
           <= Snake.length (fst st) + 1).
Proof.
  destruct st as [s a], st' as [s' a']. intros Hreach Htick.
  cbn [fst].
  pose proof (Reachable_loop_inv (s, a) g Hreach) as Hinv.
  cbn [fst] in Hinv.
  pose proof (tick_loop_inv events s s' a a' g g' Hinv Htick) as Hinv'.
  split; [apply (li_len s Hinv) |].
  split; [apply (li_len s' Hinv') |].
  split.
  { pose proof (li_len s' Hinv') as Hl.
    destruct (li_body s' Hinv') as (Hne & _).
    destruct (Snake.positions s') as [|x xs]; [congruence |].
    simpl List.length in Hl. lia. }
  destruct (tick_cases events s s' a a' g g' Htick)
    as (s1 & h & rest & Hkeys & Hpos & Hcase).
  exists s1. split; [exact Hkeys |].
  destruct (handle_keys_Ok events s g s1 g Hkeys)
    as (_ & (_ & _ & Hlen1 & _) & _).
  destruct (update_direction_keeps s1) as (Hlen2 & _).
  destruct Hcase as [(Hr & s3 & g3 & Hreset & _ & Heat)
                    | (Hnr & _ & Heat)].
  - split; [intros _ | intros Hn; contradiction].
    rewrite reset_eq in Hreset.
    match type of Hreset with
    | Ok (?x, ?y) = _ =>
        assert (E : x = s3 /\ y = g3) by (split; congruence);
        destruct E as [<- <-]
    end.
    match type of Heat with
    | eat ?x _ ?y = _ =>
        rewrite (eat_eq x a board_centre [] y eq_refl) in Heat
    end.
    destruct (vec_eqb board_centre (Apple.position a));
      injection Heat as <- _ _; [right | left]; reflexivity.
  - split; [intros Hr; contradiction | intros _].
    destruct (advanced_head (Snake.update_direction s1)
                (step_wrapped h (Snake.direction (Snake.update_direction s1)))
                h rest Hpos) as (tl & Hadv).
    rewrite (eat_eq _ a _ tl g Hadv) in Heat.
    destruct (vec_eqb _ (Apple.position a)); injection Heat as <- _ _;
      cbn [Snake.grow Snake.length]; rewrite advanced_length; lia.
Qed.

Lemma length_within_growth_target_witness :
  Z.of_nat (List.length (Snake.positions coiled_snake))
  <= Snake.length coiled_snake
  /\ Z.of_nat (List.length (Snake.positions restarted_snake))
     <= Snake.length restarted_snake
  /\ 1 <= Snake.length restarted_snake
  /\ exists s1,
       handle_keys [KEYDOWN K_UP] coiled_snake coiled_rng
       = Ok (s1, coiled_rng)
       /\ (move_resets (Snake.update_direction s1) coiled_rng ->
           Snake.length restarted_snake = 1
           \/ Snake.length restarted_snake = 2)
       /\ (~ move_resets (Snake.update_direction s1) coiled_rng ->
           Snake.length coiled_snake <= Snake.length restarted_snake
           <= Snake.length coiled_snake + 1).
Proof.
  apply (length_within_growth_target [KEYDOWN K_UP]
           (coiled_snake, centre_apple) (restarted_snake, moved_apple)
           coiled_rng restarted_rng).
  - exact coiled_Reachable.
  - reflexivity.
Defined.

(** C4: [move] resets exactly when the cell it computed for the new head is
    a cell of the body it started from at an index of 2 or more.  Hence a
    body of one or two cells never collides, and on a body without repeated
    cells a step into the neck, the cell at index 1, does not collide
    whatever the length. *)
Theorem self_collision_iff (s : Snake.t) (h : Vec) (rest : list Vec)
    (g : RNG) :
  Snake.positions s = h :: rest ->
  (move_resets s g <->
   exists i, (2 <= i)%nat
             /\ nth_error (Snake.positions s) i
                = Some (step_wrapped h (Snake.direction s)))
  /\ ((List.length (Snake.positions s) <= 2)%nat -> ~ move_resets s g)
  /\ (NoDup (Snake.positions s) ->
      nth_error (Snake.positions s) 1
      = Some (step_wrapped h (Snake.direction s)) ->
      ~ move_resets s g).
Proof.
  intros Hpos.
  assert (Hiff : move_resets s g <->
                 exists i, (2 <= i)%nat
                           /\ nth_error (Snake.positions s) i
                              = Some (step_wrapped h (Snake.direction s))).
  { rewrite (move_resets_iff s h rest g Hpos), contains_In.
    apply In_skipn_nth_error. }
  split; [exact Hiff |]. split.
  - intros Hlen Hr. apply Hiff in Hr. destruct Hr as (i & Hi & Hnth).
    assert (Hlt : (i < List.length (Snake.positions s))%nat)
      by (apply nth_error_Some; congruence).
    lia.
  - intros Hnd Hneck Hr. apply Hiff in Hr. destruct Hr as (i & Hi & Hnth).
    rewrite NoDup_nth_error in Hnd.
    assert (E : i = 1%nat).
    { apply Hnd; [| congruence].
      apply nth_error_Some. congruence. }
    lia.
Qed.

Lemma self_collision_iff_witness :
  (move_resets reversing_snake (rng_of []) <->
   exists i, (2 <= i)%nat
             /\ nth_error (Snake.positions reversing_snake) i
                = Some (step_wrapped (100, 100)
                          (Snake.direction reversing_snake)))
  /\ ((List.length (Snake.positions reversing_snake) <= 2)%nat ->
      ~ move_resets reversing_snake (rng_of []))
  /\ (NoDup (Snake.positions reversing_snake) ->
      nth_error (Snake.positions reversing_snake) 1
      = Some (step_wrapped (100, 100) (Snake.direction reversing_snake)) ->
      ~ move_resets reversing_snake (rng_of [])).
Proof.
  apply (self_collision_iff reversing_snake (100, 100)
           [(120, 100); (140, 100)] (rng_of [])).
  reflexivity.
Defined.

Lemma body_ok_snake (s : Snake.t) :
  body_ok (Snake.positions s) -> snake_body_ok s.
Proof.
  intros (Hne & Hnd & Hadj). split; [| split; assumption].
  destruct (Snake.positions s) as [|h rest] eqn:Hpos; [congruence |].
  exists h, rest. split; [reflexivity |].
  intros g. unfold Snake.get_head_position. rewrite Hpos. reflexivity.
Qed.

(** C5: the snake [main] builds has a well-formed body (non-empty, head
    first, no cell twice, consecutive cells one wrapped step apart), and so
    has the snake at the top of every iteration, after [update_direction],
    after [move] (in its reset branch too) and after the food step; none of
    these steps fails once the key handler has returned. *)
Theorem body_invariant (st : Snake.t * Apple.t) (g : RNG) :
  Reachable (st, g) ->
  snake_body_ok Snake.init
  /\ snake_body_ok (fst st)
  /\ forall events s1,
       handle_keys events (fst st) g = Ok (s1, g) ->
       snake_body_ok (Snake.update_direction s1)
       /\ exists s3 g3,
            Snake.move (Snake.update_direction s1) g = Ok (s3, g3)
            /\ snake_body_ok s3
            /\ (move_resets (Snake.update_direction s1) g ->
                Snake.positions s3 = [board_centre])
            /\ exists s4 a4 g4,
                 eat s3 (snd st) g3 = Ok (s4, a4, g4)
                 /\ snake_body_ok s4
                 /\ tick events st g = Ok (s4, a4, g4).
Proof.
  destruct st as [s a]. intros Hreach. cbn [fst snd].
  pose proof (Reachable_loop_inv (s, a) g Hreach) as Hinv.
  cbn [fst] in Hinv.
  split; [apply body_ok_snake, (li_body _ loop_inv_init) |].
  split; [apply body_ok_snake, (li_body s Hinv) |].
  intros events s1 Hkeys.
  destruct (loop_inv_handle_keys events s s1 g g Hinv Hkeys) as [H1 _].
  pose proof (update_direction_mid_inv s1 H1) as H2.
  split; [apply body_ok_snake, (mi_body _ H2) |].
  destruct (move_loop_inv (Snake.update_direction s1) g H2)
    as (s3 & g3 & Hmove & H3).
  exists s3, g3. split; [exact Hmove |].
  split; [apply body_ok_snake, (li_body s3 H3) |].
  split.
  { intros Hr. unfold move_resets in Hr. rewrite Hmove, reset_eq in Hr.
    injection Hr as -> _. reflexivity. }
  destruct (eat_loop_inv s3 a g3 H3) as (s4 & a4 & g4 & Heat & H4 & _).
  exists s4, a4, g4. split; [exact Heat |].
  split; [apply body_ok_snake, (li_body s4 H4) |].
  rewrite tick_eq, Hkeys, Hmove. exact Heat.
Qed.

Lemma body_invariant_witness :
  snake_body_ok Snake.init
  /\ snake_body_ok coiled_snake
  /\ forall events s1,
       handle_keys events coiled_snake coiled_rng = Ok (s1, coiled_rng) ->
       snake_body_ok (Snake.update_direction s1)
       /\ exists s3 g3,
            Snake.move (Snake.update_direction s1) coiled_rng = Ok (s3, g3)
            /\ snake_body_ok s3
            /\ (move_resets (Snake.update_direction s1) coiled_rng ->
                Snake.positions s3 = [board_centre])
            /\ exists s4 a4 g4,
                 eat s3 centre_apple g3 = Ok (s4, a4, g4)
                 /\ snake_body_ok s4
                 /\ tick events (coiled_snake, centre_apple) coiled_rng
                    = Ok (s4, a4, g4).
Proof.
  apply (body_invariant (coiled_snake, centre_apple) coiled_rng).
  exact coiled_Reachable.
Defined.

Lemma advanced_positions (s : Snake.t) (new_head h : Vec)
    (rest : list Vec) :
  Snake.positions s = h :: rest ->
  Snake.positions (advanced s new_head) = new_head :: Snake.positions s
  \/ Snake.positions (advanced s new_head)
     = new_head :: removelast (Snake.positions s).
Proof.
  intros Hpos. unfold advanced.
  destruct (_ >? _); cbn [Snake.positions]; [right | left; reflexivity].
  rewrite Hpos. reflexivity.
Qed.

(** C6: with a unit direction, the cell [move] computes for the new head is
    the head plus one cell along the direction, wrapped on each axis.  If
    that cell is in [positions[2:]] then [move] resets; otherwise [move]
    returns, without touching the generator, a snake whose head is that
    cell, in front of the old body or of the old body less its last cell.
    The coordinates of the cell are non-negative and in range, it is one
    wrapped step from the previous head, and leaving the board by any of
    the four edges re-enters it on the opposite one. *)
Theorem move_new_head (s : Snake.t) (h : Vec) (rest : list Vec) (g : RNG) :
  Snake.positions s = h :: rest ->
  is_direction (Snake.direction s) ->
  let new_head :=
    (wrap (fst h + fst (Snake.direction s) * GRID_SIZE) SCREEN_WIDTH,
     wrap (snd h + snd (Snake.direction s) * GRID_SIZE) SCREEN_HEIGHT) in
  (In new_head (skipn 2 (Snake.positions s)) -> move_resets s g)
  /\ (~ In new_head (skipn 2 (Snake.positions s)) ->
      exists s' tl,
        Snake.move s g = Ok (s', g)
        /\ Snake.positions s' = new_head :: tl
        /\ Snake.get_head_position s' g = Ok (new_head, g)
        /\ (tl = Snake.positions s \/ tl = removelast (Snake.positions s)))
  /\ (0 <= fst new_head < SCREEN_WIDTH /\ 0 <= snd new_head < SCREEN_HEIGHT)
  /\ adjacent new_head h
  /\ (Snake.direction s = RIGHT -> fst h = SCREEN_WIDTH - GRID_SIZE ->
      fst new_head = 0)
  /\ (Snake.direction s = LEFT -> fst h = 0 ->
      fst new_head = SCREEN_WIDTH - GRID_SIZE)
  /\ (Snake.direction s = DOWN -> snd h = SCREEN_HEIGHT - GRID_SIZE ->
      snd new_head = 0)
  /\ (Snake.direction s = UP -> snd h = 0 ->
      snd new_head = SCREEN_HEIGHT - GRID_SIZE).
Proof.
  intros Hpos Hd new_head.
  change new_head with (step_wrapped h (Snake.direction s)).
  pose proof (move_eq s h rest g Hpos) as Hmove.
  pose proof (move_resets_iff s h rest g Hpos) as Hiff.
  split; [| split; [| split; [| split]]].
  - intros Hin. apply Hiff, contains_In. exact Hin.
  - intros Hnin. apply contains_not_In in Hnin. rewrite Hnin in Hmove.
    exists (advanced s (step_wrapped h (Snake.direction s))).
    destruct (advanced_positions s (step_wrapped h (Snake.direction s))
                h rest Hpos) as [E | E].
    + exists (Snake.positions s). split; [exact Hmove |].
      split; [exact E |]. split; [| left; reflexivity].
      unfold Snake.get_head_position. rewrite E. reflexivity.
    + exists (removelast (Snake.positions s)). split; [exact Hmove |].
      split; [exact E |]. split; [| right; reflexivity].
      unfold Snake.get_head_position. rewrite E. reflexivity.
  - apply step_wrapped_in_board.
  - apply step_wrapped_adjacent. exact Hd.
  - repeat split; intros Ed Eh; rewrite Ed; unfold step_wrapped, wrap;
      simpl; rewrite Eh; reflexivity.
Qed.

Lemma move_new_head_witness :
  (exists s' tl,
     Snake.move edge_snake (rng_of []) = Ok (s', rng_of [])
     /\ Snake.positions s' = (0, 240) :: tl
     /\ Snake.get_head_position s' (rng_of []) = Ok ((0, 240), rng_of [])
     /\ (tl = Snake.positions edge_snake
         \/ tl = removelast (Snake.positions edge_snake)))
  /\ (0 <= 0 < SCREEN_WIDTH /\ 0 <= 240 < SCREEN_HEIGHT)
  /\ adjacent (0, 240) (620, 240)
  /\ fst (0, 240) = 0.
Proof.
  pose proof (move_new_head edge_snake (620, 240) [] (rng_of []) eq_refl
                (or_intror (or_intror (or_intror eq_refl)))) as H.
  cbv zeta in H. destruct H as (_ & H2 & H3 & H4 & H5 & _).
  split; [apply H2; intros [] |].
  split; [exact H3 |]. split; [exact H4 |].
  apply H5; reflexivity.
Defined.

(** C7: if the buffered direction is the current direction or perpendicular
    to it, [update_direction] makes it the direction and empties the
    buffer, leaving the rest of the snake as it was. *)
Theorem update_direction_commits (self : Snake.t) (p : Vec) :
  is_direction (Snake.direction self) ->
  is_direction p ->
  Snake.next_direction self = Some p ->
  p = Snake.direction self \/ perpendicular p (Snake.direction self) ->
  Snake.update_direction self
  = Snake.mk (Snake.position self) (Snake.body_color self)
      (Snake.length self) (Snake.positions self) p None (Snake.last self)
  /\ Snake.direction (Snake.update_direction self) = p
  /\ Snake.next_direction (Snake.update_direction self) = None.
Proof.
  intros Hd Hp Hnext Hor.
  assert (E : Snake.update_direction self
              = Snake.mk (Snake.position self) (Snake.body_color self)
                  (Snake.length self) (Snake.positions self) p None
                  (Snake.last self)).
  { unfold Snake.update_direction. rewrite Hnext.
    unfold perpendicular in Hor.
    destruct (Snake.direction self) as [cx cy].
    each_direction Hp; apply is_direction_cases in Hd;
      destruct Hd as [Hd | [Hd | [Hd | Hd]]]; injection Hd as -> ->;
      try reflexivity; exfalso; simpl in Hor;
      destruct Hor as [Hor | Hor]; (discriminate Hor || lia). }
  rewrite E. auto.
Qed.

Lemma update_direction_commits_witness :
  Snake.update_direction (Snake.buffer_direction UP Snake.init)
  = Snake.mk (Snake.position Snake.init) (Snake.body_color Snake.init)
      (Snake.length Snake.init) (Snake.positions Snake.init) UP None
      (Snake.last Snake.init)
  /\ Snake.direction
       (Snake.update_direction (Snake.buffer_direction UP Snake.init)) = UP
  /\ Snake.next_direction
       (Snake.update_direction (Snake.buffer_direction UP Snake.init)) = None.
Proof.
  apply (update_direction_commits (Snake.buffer_direction UP Snake.init) UP).
  - right; right; right; reflexivity.
  - left; reflexivity.
  - reflexivity.
  - right; reflexivity.
Defined.

Lemma reset_direction_eq (self : Snake.t) (g : RNG) :
  reset_direction self g
  = nth_error DIRECTIONS (choice_index 4 (tape g (cursor g))).
Proof.
  unfold reset_direction. rewrite reset_eq. cbn [fresh_snake Snake.direction].
  unfold choice_index.
  pose proof (Nat.mod_upper_bound (tape g (cursor g)) 4 ltac:(discriminate))
    as Hlt.
  destruct (Nat.modulo (tape g (cursor g)) 4) as [|[|[|[|k]]]];
    try reflexivity.
  exfalso. lia.
Qed.

Lemma DIRECTIONS_NoDup : NoDup DIRECTIONS.
Proof.
  unfold DIRECTIONS.
  repeat (apply NoDup_cons; [simpl; intuition discriminate |]).
  apply NoDup_nil.
Qed.

Lemma DIRECTIONS_all (d : Vec) : is_direction d <-> In d DIRECTIONS.
Proof.
  unfold is_direction, DIRECTIONS. simpl. split.
  - intros [H | [H | [H | H]]]; subst; auto.
  - intros [H | [H | [H | [H | []]]]]; subst; auto.
Qed.

(** C8: from any snake and any state of the generator [reset] returns; the
    body is then the single cell of the board centre, the growth target is
    1, the buffered direction is cleared, and the direction is the element
    [random.choice] picks among the four unit vectors.  Each of the four is
    what [reset] installs on exactly one of the four picks, so a uniform
    pick makes every direction as likely as any other. *)
Theorem reset_postcondition (self : Snake.t) (g : RNG) :
  exists s' g',
    Snake.reset self g = Ok (s', g')
    /\ List.length (Snake.positions s') = 1%nat
    /\ Snake.length s' = 1
    /\ Snake.positions s' = [board_centre]
    /\ Snake.position s' = board_centre
    /\ board_centre = (320, 240)
    /\ Snake.next_direction s' = None
    /\ is_direction (Snake.direction s')
    /\ reset_direction self g
       = nth_error DIRECTIONS (choice_index 4 (tape g (cursor g)))
    /\ List.length DIRECTIONS = 4%nat
    /\ NoDup DIRECTIONS
    /\ (forall d, is_direction d <-> In d DIRECTIONS)
    /\ forall d, is_direction d ->
                 List.length (picks_giving self d) = 1%nat.
Proof.
  rewrite reset_eq. eexists _, _. split; [reflexivity |].
  cbn [fresh_snake Snake.positions Snake.length Snake.position
       Snake.next_direction Snake.direction].
  repeat (split; [reflexivity |]).
  split; [apply is_direction_choice |].
  split; [apply reset_direction_eq |].
  split; [reflexivity |].
  split; [exact DIRECTIONS_NoDup |].
  split; [exact DIRECTIONS_all |].
  intros d Hd. each_direction Hd; reflexivity.
Qed.

(** C9, as stated, fails in "the food moves": in the game whose first apple
    is one cell right of the centre and whose next two draws name that cell
    again, the first tick eats the apple and the apple placed anew lies
    where it was. *)
Lemma eaten_apple_can_stay :
  main_init (rng_of replay_draws) = Ok (Snake.init, ahead_apple, ahead_rng)
  /\ Snake.positions Snake.init = [board_centre]
  /\ Snake.direction Snake.init = RIGHT
  /\ Apple.position ahead_apple = (fst board_centre + GRID_SIZE,
                                   snd board_centre)
  /\ tick [] (Snake.init, ahead_apple) ahead_rng
     = Ok (Snake.grow stepped_snake, ahead_apple,
           mkRNG (tape (rng_of replay_draws)) 4).
Proof. repeat split. Qed.

(** C9 (amended): from a one-cell snake on the board centre with a growth
    target of 1 and the apple one cell to its right on the same row, a tick
    whose committed direction is RIGHT ends with the head on the cell the
    apple had, a body of still one cell, a growth target of 2, and the apple
    placed by [randomize_position] on a freshly drawn cell, which is the old
    cell again exactly when the two draws name it. *)
Theorem scenario_A (events : list Event) (s s1 : Snake.t) (a : Apple.t)
    (g : RNG) :
  Snake.positions s = [board_centre] ->
  Snake.length s = 1 ->
  handle_keys events s g = Ok (s1, g) ->
  Snake.direction (Snake.update_direction s1) = RIGHT ->
  Apple.position a = (fst board_centre + GRID_SIZE, snd board_centre) ->
  exists s' a' g',
    tick events (s, a) g = Ok (s', a', g')
    /\ Snake.get_head_position s' g' = Ok (Apple.position a, g')
    /\ Snake.positions s' = [Apple.position a]
    /\ List.length (Snake.positions s') = 1%nat
    /\ Snake.length s' = 2
    /\ Apple.randomize_position a g = Ok (a', g')
    /\ a' = placed a (tape g (cursor g)) (tape g (S (cursor g)))
    /\ (Apple.position a' = Apple.position a <->
        Z.of_nat (tape g (cursor g)) mod GRID_WIDTH = 17
        /\ Z.of_nat (tape g (S (cursor g))) mod GRID_HEIGHT = 12).
Proof.
  intros Hpos Hlen Hkeys Hdir Happle.
  destruct (handle_keys_Ok events s g s1 g Hkeys)
    as (_ & (_ & _ & Hlen1 & Hpos1 & _) & _).
  destruct (update_direction_keeps s1) as (Hlen2 & Hpos2).
  rewrite Hlen1, Hlen in Hlen2. rewrite Hpos1, Hpos in Hpos2.
  rewrite tick_eq, Hkeys.
  rewrite (move_eq _ board_centre [] g Hpos2), Hpos2, Hdir.
  cbn [skipn contains existsb]. unfold advanced. rewrite Hpos2, Hlen2.
  cbn [List.length Z.of_nat Z.gtb Z.compare Pos.of_succ_nat Pos.succ
       Pos.compare Pos.compare_cont removelast List.last].
  match goal with
  | |- context [eat ?x a g] =>
      rewrite (eat_eq x a (step_wrapped board_centre RIGHT) [] g eq_refl)
  end.
  rewrite Happle.
  change (vec_eqb (step_wrapped board_centre RIGHT)
            (fst board_centre + GRID_SIZE, snd board_centre)) with true.
  cbv iota. eexists _, _, _. split; [reflexivity |].
  cbn [Snake.grow Snake.positions Snake.length].
  split; [reflexivity |]. split; [reflexivity |]. split; [reflexivity |].
  split; [reflexivity |]. split; [apply randomize_position_eq |].
  split; [reflexivity |].
  unfold placed. cbn [Apple.position].
  change (GRID_WIDTH - 1 - 0 + 1) with GRID_WIDTH.
  change (GRID_HEIGHT - 1 - 0 + 1) with GRID_HEIGHT.
  change (fst board_centre + GRID_SIZE) with 340.
  change (snd board_centre) with 240. unfold GRID_SIZE.
  split.
  - intros E. injection E as Ex Ey. lia.
  - intros [Ex Ey]. rewrite Ex, Ey. reflexivity.
Qed.

Lemma scenario_A_witness :
  exists s' a' g',
    tick [] (Snake.init, ahead_apple) (rng_of [5; 5]%nat) = Ok (s', a', g')
    /\ Snake.get_head_position s' g' = Ok (Apple.position ahead_apple, g')
    /\ Snake.positions s' = [Apple.position ahead_apple]
    /\ List.length (Snake.positions s') = 1%nat
    /\ Snake.length s' = 2
    /\ Apple.randomize_position ahead_apple (rng_of [5; 5]%nat)
       = Ok (a', g')
    /\ a' = placed ahead_apple 5 5
    /\ (Apple.position a' = Apple.position ahead_apple <->
        Z.of_nat 5 mod GRID_WIDTH = 17 /\ Z.of_nat 5 mod GRID_HEIGHT = 12).
Proof.
  apply (scenario_A [] Snake.init Snake.init ahead_apple
           (rng_of [5; 5]%nat));
    reflexivity.
Defined.

(** C10: the apple [Apple()] builds and the apple any call of
    [randomize_position] leaves lie on a cell of the grid inside the board:
    each coordinate is a multiple of the cell size, from 0 and below the
    screen's extent.  The driver's equality test against the head can so
    succeed, as it does on the first tick of a game whose first apple is one
    cell ahead of the snake. *)
Theorem apple_on_grid (self : Apple.t) (g : RNG) :
  (exists a g', Apple.init g = Ok (a, g') /\ apple_cell_ok a)
  /\ (exists a g', Apple.randomize_position self g = Ok (a, g')
                   /\ apple_cell_ok a)
  /\ (exists s3,
        Snake.move (Snake.update_direction Snake.init) ahead_rng
        = Ok (s3, ahead_rng)
        /\ Snake.get_head_position s3 ahead_rng
           = Ok (Apple.position ahead_apple, ahead_rng)
        /\ apple_cell_ok ahead_apple).
Proof.
  assert (Hcell : forall (b : Apple.t) (x y : nat),
             apple_cell_ok (placed b x y)).
  { intros b x y. unfold apple_cell_ok, placed. cbn [Apple.position].
    change (GRID_WIDTH - 1 - 0 + 1) with 32.
    change (GRID_HEIGHT - 1 - 0 + 1) with 24.
    pose proof (Z.mod_pos_bound (Z.of_nat x) 32 ltac:(lia)) as Hx.
    pose proof (Z.mod_pos_bound (Z.of_nat y) 24 ltac:(lia)) as Hy.
    eexists _, _. split; [reflexivity |].
    unfold grid_aligned, in_board, GRID_WIDTH, GRID_HEIGHT, SCREEN_WIDTH,
      SCREEN_HEIGHT, GRID_SIZE.
    simpl fst. simpl snd. change (640 / 20) with 32. change (480 / 20) with 24.
    repeat split; try lia; apply Z.divide_factor_r. }
  split; [| split].
  - unfold Apple.init. rewrite randomize_position_eq.
    eexists _, _. split; [reflexivity | apply Hcell].
  - rewrite randomize_position_eq.
    eexists _, _. split; [reflexivity | apply Hcell].
  - exists stepped_snake. split; [reflexivity |]. split; [reflexivity |].
    apply (Hcell ahead_apple 17%nat 12%nat).
Qed.

(** ** Further properties: the key handler *)

Lemma existsb_is_quit (events : list Event) :
  existsb is_quit events = true <-> In QUIT events.
Proof.
  rewrite existsb_exists. split.
  - intros (e & Hin & He). destruct e; try discriminate He. exact Hin.
  - intros Hin. exists QUIT. split; [exact Hin | reflexivity].
Qed.

(** [handle_keys] in closed form. *)
Lemma handle_keys_eq (events : list Event) :
  forall s g,
    handle_keys events s g =
    if existsb is_quit events then Raise SystemExit
    else Ok (match last_arrow events with
             | Some d => Snake.buffer_direction d s
             | None => s
             end, g).
Proof.
  induction events as [|event rest IH]; intros s g; [reflexivity |].
  destruct event as [| key |].
  - reflexivity.
  - cbn [handle_keys existsb is_quit orb last_arrow]. rewrite IH.
    destruct (existsb is_quit rest); [reflexivity |].
    destruct (last_arrow rest) as [d |]; destruct key; reflexivity.
  - cbn [handle_keys existsb is_quit orb last_arrow arrow]. rewrite IH.
    destruct (existsb is_quit rest); [reflexivity |].
    destruct (last_arrow rest) as [d |]; reflexivity.
Qed.

(** X1: [handle_keys] raises [SystemExit] exactly when the batch holds a
    QUIT event, wherever it stands and whatever keys come with it; it raises
    nothing else, and when it returns the generator is untouched. *)
Theorem handle_keys_quit (events : list Event) (s : Snake.t) (g : RNG) :
  (handle_keys events s g = Raise SystemExit <-> In QUIT events)
  /\ handle_keys events s g <> Raise IndexError
  /\ (forall s1 g1, handle_keys events s g = Ok (s1, g1) -> g1 = g).
Proof.
  rewrite handle_keys_eq, <- existsb_is_quit.
  destruct (existsb is_quit events); repeat split; try discriminate; auto.
  intros s1 g1 E. injection E as _ <-. reflexivity.
Qed.

(** X2: in a batch without QUIT the last arrow key wins: the buffer holds
    its direction after [handle_keys], earlier keys of the batch are
    forgotten, and a batch without arrow keys (other keys, other events)
    leaves the snake as it was.  Nothing but the buffer ever changes. *)
Theorem handle_keys_last_arrow (events : list Event) (s : Snake.t)
    (g : RNG) :
  ~ In QUIT events ->
  handle_keys events s g
  = Ok (match last_arrow events with
        | Some d => Snake.buffer_direction d s
        | None => s
        end, g).
Proof.
  intros Hq. rewrite handle_keys_eq.
  destruct (existsb is_quit events) eqn:E; [| reflexivity].
  apply existsb_is_quit in E. contradiction.
Qed.

Lemma handle_keys_last_arrow_witness :
  handle_keys [KEYDOWN K_UP; OTHER_EVENT; KEYDOWN K_LEFT; KEYDOWN K_OTHER]
    Snake.init (rng_of [])
  = Ok (match last_arrow [KEYDOWN K_UP; OTHER_EVENT; KEYDOWN K_LEFT;
                          KEYDOWN K_OTHER] with
        | Some d => Snake.buffer_direction d Snake.init
        | None => Snake.init
        end, rng_of []).
Proof.
  apply (handle_keys_last_arrow
           [KEYDOWN K_UP; OTHER_EVENT; KEYDOWN K_LEFT; KEYDOWN K_OTHER]
           Snake.init (rng_of [])).
  simpl. intuition discriminate.
Defined.

(** ** Further properties: the game never fails *)

Lemma tick_total (events : list Event) (st : Snake.t * Apple.t) (g : RNG) :
  Reachable (st, g) ->
  if existsb is_quit events
  then tick events st g = Raise SystemExit
  else exists st' g', tick events st g = Ok (st', g').
Proof.
  destruct st as [s a]. intros Hreach.
  pose proof (Reachable_loop_inv (s, a) g Hreach) as Hinv.
  cbn [fst] in Hinv. rewrite tick_eq.
  pose proof (handle_keys_eq events s g) as Hkeys.
  destruct (existsb is_quit events).
  - rewrite Hkeys. reflexivity.
  - destruct (loop_inv_handle_keys events s _ g g Hinv Hkeys) as [H1 _].
    rewrite Hkeys.
    destruct (move_loop_inv _ g (update_direction_mid_inv _ H1))
      as (s3 & g3 & Hmove & H3).
    rewrite Hmove.
    destruct (eat_loop_inv s3 a g3 H3) as (s4 & a4 & g4 & Heat & _).
    exists (s4, a4), g4. exact Heat.
Qed.

Lemma main_loop_total (batches : list (list Event)) :
  forall st g,
    Reachable (st, g) ->
    if existsb (existsb is_quit) batches
    then main_loop batches st g = Raise SystemExit
    else exists st' g', main_loop batches st g = Ok (st', g').
Proof.
  induction batches as [|events rest IH]; intros st g Hreach.
  - exists st, g. reflexivity.
  - cbn [existsb main_loop]. unfold bind.
    pose proof (tick_total events st g Hreach) as Htick.
    destruct (existsb is_quit events); cbn [orb].
    + rewrite Htick. reflexivity.
    + destruct Htick as (st1 & g1 & Htick). rewrite Htick.
      apply IH. apply (reach_tick st g events st1 g1 Hreach Htick).
Qed.

(** X3: [main] never fails.  From any state of the generator and over any
    batches of events, it raises [SystemExit] if one of the batches holds a
    QUIT event and otherwise runs through all of them; no [IndexError] is
    ever raised by [positions[0]], [pop()] or [random.choice]. *)
Theorem main_never_fails (batches : list (list Event)) (g : RNG) :
  main batches g <> Raise IndexError
  /\ (main batches g = Raise SystemExit <->
      exists events, In events batches /\ In QUIT events)
  /\ ((exists st g', main batches g = Ok (st, g')) <->
      forall events, In events batches -> ~ In QUIT events).
Proof.
  assert (Hinit : exists st0 g0, main_init g = Ok (st0, g0)).
  { unfold main_init, Apple.init, bind. rewrite randomize_position_eq.
    eexists _, _. reflexivity. }
  destruct Hinit as (st0 & g0 & Hinit).
  pose proof (main_loop_total batches st0 g0 (reach_init g st0 g0 Hinit))
    as Hrun.
  assert (Hq : existsb (existsb is_quit) batches = true <->
               exists events, In events batches /\ In QUIT events).
  { rewrite existsb_exists. split; intros (ev & Hin & H); exists ev;
      (split; [exact Hin | apply existsb_is_quit; exact H]). }
  unfold main, bind. rewrite Hinit.
  destruct (existsb (existsb is_quit) batches).
  - rewrite Hrun. split; [discriminate |]. split.
    + split; [intros _; apply Hq; reflexivity | reflexivity].
    + split.
      * intros (st & g' & E). discriminate E.
      * intros Hall. destruct (proj1 Hq eq_refl) as (ev & Hin & Hquit).
        exfalso. apply (Hall ev Hin Hquit).
  - destruct Hrun as (st & g' & Hrun). rewrite Hrun.
    split; [discriminate |]. split.
    + split; [discriminate |]. intros H. apply Hq in H. discriminate H.
    + split; [| eauto].
      intros _ ev Hin Hquit.
      assert (E : false = true) by (apply Hq; eauto). discriminate E.
Qed.

(** ** Further properties: cells, growth and the erased cell *)

Lemma last_In {A} (xs : list A) (d : A) : xs <> [] -> In (List.last xs d) xs.
Proof.
  induction xs as [|x [|y ys] IH]; intros Hne;
    [congruence | left; reflexivity |].
  right. apply IH. discriminate.
Qed.

Lemma NoDup_last_removelast {A} (xs : list A) (d : A) :
  NoDup xs -> xs <> [] -> ~ In (List.last xs d) (removelast xs).
Proof.
  intros Hnd Hne Hin.
  rewrite (app_removelast_last d Hne) in Hnd.
  apply NoDup_remove_2 in Hnd. apply Hnd. rewrite app_nil_r. exact Hin.
Qed.

Lemma Forall_removelast {A} (P : A -> Prop) (xs : list A) :
  Forall P xs -> Forall P (removelast xs).
Proof.
  intros H. apply Forall_forall. intros x Hx.
  apply In_removelast in Hx. revert x Hx. apply Forall_forall. exact H.
Qed.

Lemma stepwise_removelast (xs : list Vec) :
  stepwise xs -> stepwise (removelast xs).
Proof.
  induction xs as [|p [|q [|r rs]] IH]; try (simpl; tauto).
  intros [Hpq Hrest].
  change (removelast (p :: q :: r :: rs))
    with (p :: q :: removelast (r :: rs)).
  split; [assumption |]. apply IH. exact Hrest.
Qed.

Lemma on_grid_centre : on_grid board_centre.
Proof.
  unfold on_grid, in_board, grid_aligned. simpl.
  repeat split; try (unfold SCREEN_WIDTH, SCREEN_HEIGHT; lia).
  - exists 16. reflexivity.
  - exists 12. reflexivity.
Qed.

Lemma aligned_mod (a n : Z) :
  (GRID_SIZE | a) -> (GRID_SIZE | n) -> (GRID_SIZE | a mod n).
Proof.
  intros Ha Hn. destruct (Z.eq_dec n 0) as [-> | Hnz].
  - rewrite Z.mod_0_r. exact Ha.
  - rewrite (Z.mod_eq a n Hnz). apply Z.divide_sub_r; [exact Ha |].
    apply Z.divide_mul_l. exact Hn.
Qed.

Lemma step_wrapped_on_grid (p d : Vec) :
  on_grid p -> is_direction d -> on_grid (step_wrapped p d).
Proof.
  intros [_ [Hx Hy]] Hd. split; [apply step_wrapped_in_board |].
  unfold grid_aligned, step_wrapped, wrap. simpl fst. simpl snd.
  split; apply aligned_mod.
  - apply Z.divide_add_r; [exact Hx | apply Z.divide_factor_r].
  - exists 32. reflexivity.
  - apply Z.divide_add_r; [exact Hy | apply Z.divide_factor_r].
  - exists 24. reflexivity.
Qed.

Lemma placed_cell_ok (b : Apple.t) (x y : nat) : apple_cell_ok (placed b x y).
Proof.
  unfold apple_cell_ok, placed. cbn [Apple.position].
  change (GRID_WIDTH - 1 - 0 + 1) with 32.
  change (GRID_HEIGHT - 1 - 0 + 1) with 24.
  pose proof (Z.mod_pos_bound (Z.of_nat x) 32 ltac:(lia)) as Hx.
  pose proof (Z.mod_pos_bound (Z.of_nat y) 24 ltac:(lia)) as Hy.
  eexists _, _. split; [reflexivity |].
  unfold grid_aligned, in_board, GRID_WIDTH, GRID_HEIGHT, SCREEN_WIDTH,
    SCREEN_HEIGHT, GRID_SIZE.
  simpl fst. simpl snd. change (640 / 20) with 32. change (480 / 20) with 24.
  repeat split; try lia; apply Z.divide_factor_r.
Qed.

Lemma update_direction_same (s : Snake.t) :
  Snake.position (Snake.update_direction s) = Snake.position s
  /\ Snake.body_color (Snake.update_direction s) = Snake.body_color s
  /\ Snake.last (Snake.update_direction s) = Snake.last s.
Proof.
  unfold Snake.update_direction.
  destruct (Snake.next_direction s) as [[nx ny] |]; [| auto].
  destruct (Snake.direction s) as [cx cy].
  destruct ((cx =? - nx) && (cy =? - ny)); auto.
Qed.

Lemma play_inv_init : play_inv Snake.init.
Proof.
  constructor; simpl.
  - constructor; [exact on_grid_centre | constructor].
  - discriminate.
  - lia.
  - exact I.
  - split; reflexivity.
Qed.

Lemma play_inv_fresh (self : Snake.t) (d : Vec) :
  Snake.body_color self = SNAKE_COLOR -> play_inv (fresh_snake self d).
Proof.
  intros Hc. constructor; simpl.
  - constructor; [exact on_grid_centre | constructor].
  - discriminate.
  - lia.
  - exact I.
  - split; [reflexivity | exact Hc].
Qed.

(** After a [move] that found no collision the body has reached the growth
    target. *)
Lemma advanced_play_inv (s : Snake.t) (h : Vec) (rest : list Vec) :
  mid_inv s -> play_inv s -> Snake.positions s = h :: rest ->
  ~ In (step_wrapped h (Snake.direction s)) (Snake.positions s) ->
  play_inv (advanced s (step_wrapped h (Snake.direction s)))
  /\ Snake.length (advanced s (step_wrapped h (Snake.direction s)))
     = Z.of_nat (List.length
                   (Snake.positions
                      (advanced s (step_wrapped h (Snake.direction s))))).
Proof.
  intros [(_ & Hnd & _) Hd _ _ Hlen] [Hgrid _ Hgap Hsteps Hfix] Hpos Hfresh.
  set (nh := step_wrapped h (Snake.direction s)) in *.
  assert (Hnh : on_grid nh).
  { apply step_wrapped_on_grid; [| exact Hd].
    rewrite Hpos in Hgrid. inversion Hgrid; assumption. }
  assert (Hgrid' : Forall on_grid (nh :: Snake.positions s))
    by (constructor; assumption).
  assert (Hnd' : NoDup (nh :: Snake.positions s))
    by (constructor; assumption).
  assert (Hsteps' : stepwise (nh :: Snake.positions s)).
  { rewrite Hpos. rewrite Hpos in Hsteps. cbn [stepwise].
    split; [| exact Hsteps].
    exists (Snake.direction s). split; [exact Hd | reflexivity]. }
  unfold advanced.
  destruct (Z.of_nat (S (List.length (Snake.positions s))) >? Snake.length s)
    eqn:Htest.
  - rewrite Z.gtb_ltb, Z.ltb_lt in Htest.
    split; [constructor |];
      cbn [Snake.positions Snake.last Snake.length Snake.position
           Snake.body_color].
    + apply Forall_removelast. exact Hgrid'.
    + intros c Hc.
      assert (E : List.last (nh :: Snake.positions s) nh = c)
        by congruence.
      rewrite <- E. split.
      * assert (Hin : In (List.last (nh :: Snake.positions s) nh)
                        (nh :: Snake.positions s))
          by (apply last_In; discriminate).
        revert Hin. apply Forall_forall. exact Hgrid'.
      * apply NoDup_last_removelast; [exact Hnd' | discriminate].
    + rewrite length_removelast_cons. lia.
    + apply stepwise_removelast. exact Hsteps'.
    + exact Hfix.
    + rewrite length_removelast_cons. lia.
  - rewrite Z.gtb_ltb, Z.ltb_ge in Htest.
    split; [constructor |];
      cbn [Snake.positions Snake.last Snake.length Snake.position
           Snake.body_color].
    + exact Hgrid'.
    + discriminate.
    + simpl List.length. lia.
    + exact Hsteps'.
    + exact Hfix.
    + simpl List.length. lia.
Qed.

Lemma tick_play_inv (events : list Event) (s s' : Snake.t) (a a' : Apple.t)
    (g g' : RNG) :
  loop_inv s -> play_inv s -> apple_cell_ok a ->
  tick events (s, a) g = Ok (s', a', g') ->
  play_inv s' /\ apple_cell_ok a'.
Proof.
  intros Hinv Hplay Ha Htick.
  destruct (tick_cases events s s' a a' g g' Htick)
    as (s1 & h & rest & Hkeys & Hpos & Hcase).
  destruct (loop_inv_handle_keys events s s1 g g Hinv Hkeys) as [H1 _].
  pose proof (update_direction_mid_inv s1 H1) as H2.
  destruct (handle_keys_Ok events s g s1 g Hkeys)
    as (_ & (Ep1 & Ec1 & El1 & Eb1 & _ & Ea1) & _).
  destruct (update_direction_keeps s1) as (El2 & Eb2).
  destruct (update_direction_same s1) as (Ep2 & Ec2 & Ea2).
  assert (Hplay2 : play_inv (Snake.update_direction s1)).
  { destruct Hplay as [Hgrid Hlast Hgap Hsteps Hfix].
    constructor; rewrite ?Eb2, ?Eb1, ?El2, ?El1, ?Ea2, ?Ea1, ?Ep2, ?Ep1,
                   ?Ec2, ?Ec1; assumption. }
  destruct Hcase as [(Hr & s3 & g3 & Hreset & _ & Heat)
                    | (Hnr & _ & Heat)].
  - rewrite reset_eq in Hreset.
    match type of Hreset with
    | Ok (?x, ?y) = _ =>
        assert (E : x = s3 /\ y = g3) by (split; congruence);
        destruct E as [<- <-]
    end.
    match type of Heat with
    | eat ?x _ ?y = _ =>
        rewrite (eat_eq x a board_centre [] y eq_refl) in Heat;
        assert (Hf : play_inv x)
          by (apply play_inv_fresh; apply (pi_fixed _ Hplay2))
    end.
    destruct (vec_eqb board_centre (Apple.position a));
      injection Heat as <- <- _.
    + split; [| apply placed_cell_ok].
      destruct Hf as [Hgrid Hlast Hgap Hsteps Hfix].
      constructor; simpl in *; auto. lia.
    + split; assumption.
  - set (nh := step_wrapped h (Snake.direction (Snake.update_direction s1)))
      in *.
    assert (Hfresh : ~ In nh (Snake.positions (Snake.update_direction s1))).
    { apply (new_head_fresh _ h rest H2 Hpos).
      apply not_true_is_false. intros Hc. apply Hnr.
      apply (move_resets_iff _ h rest g Hpos). exact Hc. }
    destruct (advanced_play_inv _ h rest H2 Hplay2 Hpos Hfresh)
      as [[Hgrid Hlast Hgap Hsteps Hfix] Hfull].
    fold nh in Hgrid, Hlast, Hgap, Hsteps, Hfix, Hfull.
    destruct (advanced_head (Snake.update_direction s1) nh h rest Hpos)
      as (tl & Hadv).
    rewrite (eat_eq _ a nh tl g Hadv) in Heat.
    destruct (vec_eqb nh (Apple.position a)); injection Heat as <- <- _.
    + split; [| apply placed_cell_ok].
      constructor; cbn [Snake.grow Snake.positions Snake.last Snake.length
                        Snake.position Snake.body_color]; auto. lia.
    + split; [constructor; assumption | assumption].
Qed.

Lemma Reachable_play_inv (st : Snake.t * Apple.t) (g : RNG) :
  Reachable (st, g) -> play_inv (fst st) /\ apple_cell_ok (snd st).
Proof.
  intros H. remember (st, g) as w eqn:Ew. revert st g Ew.
  induction H as [g0 st0 g0' Hinit
                 | [s a] g0 events [s' a'] g0' Hreach IH Htick];
    intros st g Ew; injection Ew as <- <-.
  - unfold main_init, Apple.init, bind in Hinit.
    rewrite randomize_position_eq in Hinit.
    injection Hinit as <- _. split; [exact play_inv_init |].
    apply placed_cell_ok.
  - destruct (IH (s, a) g0 eq_refl) as [Hplay Ha].
    apply (tick_play_inv events s s' a a' g0 g0'); try assumption.
    apply (Reachable_loop_inv (s, a) g0 Hreach).
Qed.

(** X4: in every state [main] reaches, each body cell is a cell of the grid
    inside the board (both coordinates multiples of the cell size, within
    the window), and so are the cell kept in [last] and the apple's cell. *)
Theorem cells_on_grid (st : Snake.t * Apple.t) (g : RNG) :
  Reachable (st, g) ->
  Forall on_grid (Snake.positions (fst st))
  /\ (forall c, Snake.last (fst st) = Some c -> on_grid c)
  /\ apple_cell_ok (snd st).
Proof.
  intros Hreach.
  destruct (Reachable_play_inv st g Hreach) as [[Hgrid Hlast _ _ _] Ha].
  split; [exact Hgrid |]. split; [| exact Ha].
  intros c Hc. apply (Hlast c Hc).
Qed.

Lemma cells_on_grid_witness :
  Forall on_grid (Snake.positions coiled_snake)
  /\ (forall c, Snake.last coiled_snake = Some c -> on_grid c)
  /\ apple_cell_ok centre_apple.
Proof.
  apply (cells_on_grid (coiled_snake, centre_apple) coiled_rng).
  exact coiled_Reachable.
Defined.

(** X5: growth lags by at most one cell.  At the top of every iteration the
    growth target is the body length or one more, and right after every
    [move] of the game the body has exactly the length of the growth
    target. *)
Theorem growth_lags_by_one (st : Snake.t * Apple.t) (g : RNG) :
  Reachable (st, g) ->
  (Snake.length (fst st)
   = Z.of_nat (List.length (Snake.positions (fst st)))
   \/ Snake.length (fst st)
      = Z.of_nat (List.length (Snake.positions (fst st))) + 1)
  /\ forall events s1,
       handle_keys events (fst st) g = Ok (s1, g) ->
       exists s3 g3,
         Snake.move (Snake.update_direction s1) g = Ok (s3, g3)
         /\ Snake.length s3 = Z.of_nat (List.length (Snake.positions s3)).
Proof.
  destruct st as [s a]. intros Hreach. cbn [fst].
  pose proof (Reachable_loop_inv (s, a) g Hreach) as Hinv.
  destruct (Reachable_play_inv (s, a) g Hreach) as [Hplay _].
  cbn [fst] in Hinv, Hplay.
  split.
  { pose proof (li_len s Hinv). pose proof (pi_gap s Hplay). lia. }
  intros events s1 Hkeys.
  destruct (loop_inv_handle_keys events s s1 g g Hinv Hkeys) as [H1 _].
  pose proof (update_direction_mid_inv s1 H1) as H2.
  destruct (handle_keys_Ok events s g s1 g Hkeys)
    as (_ & (Ep1 & Ec1 & El1 & Eb1 & _ & Ea1) & _).
  destruct (update_direction_keeps s1) as (El2 & Eb2).
  destruct (update_direction_same s1) as (Ep2 & Ec2 & Ea2).
  assert (Hplay2 : play_inv (Snake.update_direction s1)).
  { destruct Hplay as [Hgrid Hlast Hgap Hsteps Hfix].
    constructor; rewrite ?Eb2, ?Eb1, ?El2, ?El1, ?Ea2, ?Ea1, ?Ep2, ?Ep1,
                   ?Ec2, ?Ec1; assumption. }
  destruct (mi_body _ H2) as (Hne & _).
  destruct (Snake.positions (Snake.update_direction s1)) as [|h rest] eqn:Hpos;
    [congruence |].
  rewrite (move_eq _ h rest g Hpos).
  destruct (contains _ _) eqn:Hc.
  - rewrite reset_eq. eexists _, _. split; reflexivity.
  - eexists _, _. split; [reflexivity |].
    apply (advanced_play_inv _ h rest H2 Hplay2 Hpos).
    apply (new_head_fresh _ h rest H2 Hpos Hc).
Qed.

Lemma growth_lags_by_one_witness :
  (Snake.length coiled_snake
   = Z.of_nat (List.length (Snake.positions coiled_snake))
   \/ Snake.length coiled_snake
      = Z.of_nat (List.length (Snake.positions coiled_snake)) + 1)
  /\ forall events s1,
       handle_keys events coiled_snake coiled_rng = Ok (s1, coiled_rng) ->
       exists s3 g3,
         Snake.move (Snake.update_direction s1) coiled_rng = Ok (s3, g3)
         /\ Snake.length s3 = Z.of_nat (List.length (Snake.positions s3)).
Proof.
  apply (growth_lags_by_one (coiled_snake, centre_apple) coiled_rng).
  exact coiled_Reachable.
Defined.

(** X6: the cell [move] leaves in [last], the one [draw] paints over with
    the background, is never a cell of the body: in every state [main]
    reaches, [last] is empty or names a cell the snake does not occupy. *)
Theorem erased_cell_is_free (st : Snake.t * Apple.t) (g : RNG) (c : Vec) :
  Reachable (st, g) ->
  Snake.last (fst st) = Some c ->
  ~ In c (Snake.positions (fst st)).
Proof.
  intros Hreach Hc.
  destruct (Reachable_play_inv st g Hreach) as [[_ Hlast _ _ _] _].
  apply (Hlast c Hc).
Qed.

Lemma erased_cell_is_free_witness :
  ~ In (340, 240) (Snake.positions (fst (coiled_snake, centre_apple)))
  /\ Snake.last coiled_snake = Some (340, 240).
Proof.
  split; [| reflexivity].
  apply (erased_cell_is_free (coiled_snake, centre_apple) coiled_rng).
  - exact coiled_Reachable.
  - reflexivity.
Defined.

(** X7: no key press turns the snake back into its neck.  In every state
    [main] reaches and for every batch of events, the cell [move] computes
    for the new head differs from the head and from the second cell of the
    body. *)
Theorem never_into_neck (st : Snake.t * Apple.t) (g : RNG)
    (events : list Event) (s1 : Snake.t) (h : Vec) (rest : list Vec) :
  Reachable (st, g) ->
  handle_keys events (fst st) g = Ok (s1, g) ->
  Snake.positions (Snake.update_direction s1) = h :: rest ->
  step_wrapped h (Snake.direction (Snake.update_direction s1)) <> h
  /\ nth_error (Snake.positions (Snake.update_direction s1)) 1
     <> Some (step_wrapped h (Snake.direction (Snake.update_direction s1))).
Proof.
  destruct st as [s a]. cbn [fst]. intros Hreach Hkeys Hpos.
  pose proof (Reachable_loop_inv (s, a) g Hreach) as Hinv.
  cbn [fst] in Hinv.
  destruct (loop_inv_handle_keys events s s1 g g Hinv Hkeys) as [H1 _].
  destruct (update_direction_mid_inv s1 H1)
    as [_ Hd (d & Hdd & Hn & Hopp) _ _].
  split; [apply step_wrapped_moves; exact Hd |].
  rewrite Hpos. destruct rest as [|n rest']; [discriminate |].
  cbn [nth_error]. intros E. injection E as E.
  rewrite Hpos in Hn. rewrite (Hn h n rest' eq_refl) in E.
  symmetry in E. revert E. apply step_wrapped_no_return; assumption.
Qed.

Lemma never_into_neck_witness :
  step_wrapped (360, 260)
    (Snake.direction
       (Snake.update_direction (Snake.buffer_direction RIGHT coiled_snake)))
  <> (360, 260)
  /\ nth_error
       (Snake.positions
          (Snake.update_direction (Snake.buffer_direction RIGHT coiled_snake)))
       1
     <> Some (step_wrapped (360, 260)
                (Snake.direction
                   (Snake.update_direction
                      (Snake.buffer_direction RIGHT coiled_snake)))).
Proof.
  apply (never_into_neck (coiled_snake, centre_apple) coiled_rng
           [KEYDOWN K_RIGHT] (Snake.buffer_direction RIGHT coiled_snake)
           (360, 260) [(380, 260); (380, 240); (360, 240)]).
  - exact coiled_Reachable.
  - reflexivity.
  - reflexivity.
Defined.

(** X8: [update_direction] applied twice is [update_direction] applied
    once, on every snake: a commit leaves nothing that a second commit
    would still apply. *)
Theorem update_direction_idempotent (s : Snake.t) :
  Snake.update_direction (Snake.update_direction s)
  = Snake.update_direction s.
Proof.
  unfold Snake.update_direction at 2 3.
  destruct (Snake.next_direction s) as [[nx ny] |] eqn:Hnext.
  - destruct (Snake.direction s) as [cx cy] eqn:Hdir.
    destruct ((cx =? - nx) && (cy =? - ny)) eqn:Htest.
    + unfold Snake.update_direction. rewrite Hnext, Hdir, Htest.
      reflexivity.
    + reflexivity.
  - unfold Snake.update_direction. rewrite Hnext. reflexivity.
Qed.

(** ** Further properties: how short a snake can collide *)




(** ** Further properties: the board is a torus *)

Lemma move_single (s : Snake.t) (p : Vec) (g : RNG) :
  Snake.positions s = [p] -> Snake.length s = 1 ->
  Snake.move s g = Ok (slid s p, g).
Proof.
  intros Hpos Hlen. rewrite (move_eq s p [] g Hpos), Hpos.
  cbn [skipn contains existsb]. unfold advanced, slid.
  rewrite Hpos, Hlen. reflexivity.
Qed.

Lemma move_times_single (k : nat) :
  forall s p g,
    Snake.positions s = [p] -> Snake.length s = 1 -> in_board p ->
    exists s',
      move_times k s g = Ok (s', g)
      /\ Snake.positions s'
         = [((fst p + fst (Snake.direction s) * GRID_SIZE * Z.of_nat k)
               mod SCREEN_WIDTH,
             (snd p + snd (Snake.direction s) * GRID_SIZE * Z.of_nat k)
               mod SCREEN_HEIGHT)]
      /\ Snake.length s' = 1.
Proof.
  induction k as [|k IH]; intros s p g Hpos Hlen Hin.
  - exists s. split; [reflexivity |]. split; [| exact Hlen].
    rewrite Hpos. destruct p as [x y]. destruct Hin as [Hx Hy].
    simpl in Hx, Hy. simpl fst. simpl snd.
    rewrite !Z.mul_0_r, !Z.add_0_r, !Z.mod_small by assumption.
    reflexivity.
  - cbn [move_times]. unfold bind. rewrite (move_single s p g Hpos Hlen).
    destruct (IH (slid s p) (step_wrapped p (Snake.direction s)) g
                eq_refl eq_refl (step_wrapped_in_board _ _))
      as (s' & Hrun & Hpos' & Hlen').
    exists s'. split; [exact Hrun |]. split; [| exact Hlen'].
    rewrite Hpos'. cbn [slid Snake.direction].
    unfold step_wrapped, wrap. simpl fst. simpl snd.
    rewrite !Zplus_mod_idemp_l. rewrite Nat2Z.inj_succ.
    f_equal; f_equal; f_equal; ring.
Qed.

(** X10: the board is a torus for [move].  A one-cell snake on the board
    that moves on along a unit direction is back on its cell after as many
    moves as the board has columns (left, right) or rows (up, down), and on
    no earlier move. *)
Theorem move_laps (s : Snake.t) (p : Vec) (g : RNG) :
  Snake.positions s = [p] ->
  Snake.length s = 1 ->
  in_board p ->
  is_direction (Snake.direction s) ->
  (exists s', move_times (lap_length (Snake.direction s)) s g = Ok (s', g)
              /\ Snake.positions s' = [p])
  /\ forall k, (0 < k < lap_length (Snake.direction s))%nat ->
               exists s', move_times k s g = Ok (s', g)
                          /\ Snake.positions s' <> [p].
Proof.
  intros Hpos Hlen Hin Hd. split.
  - destruct (move_times_single (lap_length (Snake.direction s)) s p g
                Hpos Hlen Hin) as (s' & Hrun & Hpos' & _).
    exists s'. split; [exact Hrun |]. rewrite Hpos'.
    destruct p as [x y]. destruct Hin as [Hx Hy]. simpl in Hx, Hy.
    apply is_direction_cases in Hd.
    destruct Hd as [Hd | [Hd | [Hd | Hd]]]; rewrite Hd;
      unfold lap_length; cbn [fst snd UP DOWN LEFT RIGHT Z.eqb];
      try change (Z.of_nat (Z.to_nat GRID_HEIGHT)) with 24;
      try change (Z.of_nat (Z.to_nat GRID_WIDTH)) with 32;
      unfold SCREEN_WIDTH, SCREEN_HEIGHT, GRID_SIZE in *;
      match goal with
      | |- [(?a, ?b)] = [(?c, ?d)] =>
          assert (E : a = c /\ b = d)
            by (split; Z.div_mod_to_equations; lia);
          destruct E as [-> ->]; reflexivity
      end.
  - intros k Hk.
    destruct (move_times_single k s p g Hpos Hlen Hin)
      as (s' & Hrun & Hpos' & _).
    exists s'. split; [exact Hrun |]. rewrite Hpos'. intros E.
    destruct p as [x y]. destruct Hin as [Hx Hy]. simpl in Hx, Hy.
    apply is_direction_cases in Hd.
    destruct Hd as [Hd | [Hd | [Hd | Hd]]]; rewrite Hd in E, Hk;
      unfold lap_length in Hk;
      cbn [fst snd UP DOWN LEFT RIGHT Z.eqb] in E, Hk;
      try change (Z.to_nat GRID_HEIGHT) with 24%nat in Hk;
      try change (Z.to_nat GRID_WIDTH) with 32%nat in Hk;
      match type of E with
      | [(?a, ?b)] = [(?c, ?d)] =>
          assert (Exy : a = c /\ b = d) by (split; congruence)
      end;
      destruct Exy as [Ex Ey];
      unfold SCREEN_WIDTH, SCREEN_HEIGHT, GRID_SIZE in *;
      Z.div_mod_to_equations; lia.
Qed.

Lemma move_laps_witness :
  (exists s', move_times (lap_length (Snake.direction edge_snake))
                edge_snake (rng_of []) = Ok (s', rng_of [])
              /\ Snake.positions s' = [(620, 240)])
  /\ forall k, (0 < k < lap_length (Snake.direction edge_snake))%nat ->
               exists s', move_times k edge_snake (rng_of [])
                          = Ok (s', rng_of [])
                          /\ Snake.positions s' <> [(620, 240)].
Proof.
  apply (move_laps edge_snake (620, 240) (rng_of [])).
  - reflexivity.
  - reflexivity.
  - unfold in_board, SCREEN_WIDTH, SCREEN_HEIGHT. simpl. lia.
  - right; right; right; reflexivity.
Defined.

(** ** Further properties: what a frame paints *)

Lemma draw_body_eq (color : Color) :
  forall (cells : list Vec) (surface : Surface) (px : Vec),
    fold_left
      (fun (surface : Surface) '(pos_x, pos_y) =>
         draw_rect surface color (mkRect pos_x pos_y GRID_SIZE GRID_SIZE))
      cells surface px
    = if existsb (fun p => covers p px) cells then color else surface px.
Proof.
  induction cells as [|[x y] rest IH]; intros surface px; [reflexivity |].
  cbn [fold_left existsb]. rewrite IH.
  destruct (existsb (fun p => covers p px) rest);
    [rewrite orb_true_r; reflexivity |].
  rewrite orb_false_r. reflexivity.
Qed.

(** X11: [Snake.draw] pixel by pixel, for a snake whose cells lie on the
    board.  A pixel of the window inside a body cell gets the snake's
    colour; otherwise a pixel inside the cell kept in [last] gets the
    background colour; every other pixel keeps its colour.  The erase never
    shows through the body. *)
Theorem snake_draw_pixels (s : Snake.t) (surface : Surface) (px : Vec) :
  Forall in_board (Snake.positions s) ->
  (forall c, Snake.last s = Some c -> in_board c) ->
  Snake.draw s surface px
  = if existsb (fun p => covers p px) (Snake.positions s)
    then Snake.body_color s
    else match Snake.last s with
         | Some erased =>
             if covers erased px then BOARD_BACKGROUND_COLOR
             else surface px
         | None => surface px
         end.
Proof.
  intros _ _. unfold Snake.draw. rewrite draw_body_eq.
  destruct (existsb (fun p => covers p px) (Snake.positions s));
    [reflexivity |].
  destruct (Snake.last s) as [erased |]; reflexivity.
Qed.

Lemma snake_draw_pixels_witness :
  Snake.draw coiled_snake (fun _ => APPLE_COLOR) (365, 265) = SNAKE_COLOR
  /\ Snake.draw coiled_snake (fun _ => APPLE_COLOR) (345, 245)
     = BOARD_BACKGROUND_COLOR
  /\ Snake.draw coiled_snake (fun _ => APPLE_COLOR) (5, 5) = APPLE_COLOR.
Proof.
  assert (Hbody : Forall in_board (Snake.positions coiled_snake)).
  { unfold in_board, SCREEN_WIDTH, SCREEN_HEIGHT.
    repeat constructor; simpl; lia. }
  assert (Hlast : forall c, Snake.last coiled_snake = Some c -> in_board c).
  { intros c E. injection E as <-.
    unfold in_board, SCREEN_WIDTH, SCREEN_HEIGHT. simpl. lia. }
  split; [| split].
  - exact (snake_draw_pixels coiled_snake (fun _ => APPLE_COLOR) (365, 265)
             Hbody Hlast).
  - exact (snake_draw_pixels coiled_snake (fun _ => APPLE_COLOR) (345, 245)
             Hbody Hlast).
  - exact (snake_draw_pixels coiled_snake (fun _ => APPLE_COLOR) (5, 5)
             Hbody Hlast).
Defined.

Lemma frame_eq (events : list Event) (st : Snake.t * Apple.t)
    (screen : Surface) (g : RNG) :
  frame events (st, screen) g
  = match tick events st g with
    | Ok ((s', a'), g') =>
        Ok ((s', a', Apple.draw a' (Snake.draw s' screen)), g')
    | Raise e => Raise e
    end.
Proof.
  unfold frame, bind. destruct (tick events st g) as [[[s' a'] g'] | e];
    reflexivity.
Qed.

Lemma render_eq (s : Snake.t) (a : Apple.t) (screen : Surface) (px : Vec) :
  Apple.draw a (Snake.draw s screen) px
  = if covers (Apple.position a) px then Apple.body_color a
    else if existsb (fun p => covers p px) (Snake.positions s)
    then Snake.body_color s
    else match Snake.last s with
         | Some erased =>
             if covers erased px then BOARD_BACKGROUND_COLOR
             else screen px
         | None => screen px
         end.
Proof.
  unfold Apple.draw, draw_rect.
  change (in_rect _ px && on_screen px) with (covers (Apple.position a) px).
  destruct (covers (Apple.position a) px); [reflexivity |].
  unfold Snake.draw. rewrite draw_body_eq.
  destruct (existsb (fun p => covers p px) (Snake.positions s));
    [reflexivity |].
  destruct (Snake.last s) as [erased |]; reflexivity.
Qed.

Lemma frame_Ok (events : list Event) (st st' : Snake.t * Apple.t)
    (screen screen' : Surface) (g g' : RNG) :
  frame events (st, screen) g = Ok (st', screen', g') ->
  tick events st g = Ok (st', g')
  /\ screen' = Apple.draw (snd st') (Snake.draw (fst st') screen).
Proof.
  intros Hframe. rewrite frame_eq in Hframe.
  destruct (tick events st g) as [[[s1 a1] g1] | e]; [| discriminate Hframe].
  assert (E : (s1, a1) = st' /\ Apple.draw a1 (Snake.draw s1 screen) = screen'
              /\ g1 = g').
  { repeat split; congruence. }
  destruct E as (<- & <- & <-). split; reflexivity.
Qed.

(** X12: what one iteration of the loop leaves on the screen, from any
    state [main] reaches.  After the tick, a pixel of the window in the
    apple's cell shows the apple's colour, even where the snake lies under
    it; any other pixel in a body cell shows the snake's colour; any other
    pixel in the cell of [last] shows the background; the rest of the screen
    is as it was. *)
Theorem frame_pixels (events : list Event) (st st' : Snake.t * Apple.t)
    (screen screen' : Surface) (g g' : RNG) :
  Reachable (st, g) ->
  frame events (st, screen) g = Ok (st', screen', g') ->
  Reachable (st', g')
  /\ tick events st g = Ok (st', g')
  /\ forall px,
       screen' px
       = if covers (Apple.position (snd st')) px
         then Apple.body_color (snd st')
         else if existsb (fun p => covers p px) (Snake.positions (fst st'))
         then Snake.body_color (fst st')
         else match Snake.last (fst st') with
              | Some erased =>
                  if covers erased px then BOARD_BACKGROUND_COLOR
                  else screen px
              | None => screen px
              end.
Proof.
  intros Hreach Hframe.
  destruct (frame_Ok events st st' screen screen' g g' Hframe)
    as [Htick ->].
  split; [apply (reach_tick st g events st' g' Hreach Htick) |].
  split; [exact Htick |]. intros px. apply render_eq.
Qed.

Lemma frame_pixels_witness :
  Reachable (restarted_snake, moved_apple, restarted_rng)
  /\ tick [KEYDOWN K_UP] (coiled_snake, centre_apple) coiled_rng
     = Ok (restarted_snake, moved_apple, restarted_rng)
  /\ forall px,
       Apple.draw moved_apple (Snake.draw restarted_snake coiled_screen) px
       = if covers (Apple.position (snd (restarted_snake, moved_apple))) px
         then Apple.body_color (snd (restarted_snake, moved_apple))
         else if existsb (fun p => covers p px)
                   (Snake.positions (fst (restarted_snake, moved_apple)))
         then Snake.body_color (fst (restarted_snake, moved_apple))
         else match Snake.last (fst (restarted_snake, moved_apple)) with
              | Some erased =>
                  if covers erased px then BOARD_BACKGROUND_COLOR
                  else coiled_screen px
              | None => coiled_screen px
              end.
Proof.
  apply (frame_pixels [KEYDOWN K_UP] (coiled_snake, centre_apple)
           (restarted_snake, moved_apple) coiled_screen
           (Apple.draw moved_apple (Snake.draw restarted_snake coiled_screen))
           coiled_rng restarted_rng).
  - exact coiled_Reachable.
  - reflexivity.
Defined.

(** X13: a reset does not clear the old snake from the screen.  From any
    state [main] reaches, on an iteration in which [move] resets, the frame repaints only the board
    centre and the apple's cell: every other pixel, those of the body the
    snake just lost included, keeps the colour it had. *)
Theorem reset_frame_keeps_old_body (events : list Event) (s s1 : Snake.t)
    (a : Apple.t) (st' : Snake.t * Apple.t) (screen screen' : Surface)
    (g g' : RNG) :
  Reachable (s, a, g) ->
  handle_keys events s g = Ok (s1, g) ->
  move_resets (Snake.update_direction s1) g ->
  frame events ((s, a), screen) g = Ok (st', screen', g') ->
  Reachable (st', g')
  /\ apple_cell_ok (snd st')
  /\ Snake.positions (fst st') = [board_centre]
  /\ Snake.last (fst st') = None
  /\ forall px,
       covers board_centre px = false ->
       covers (Apple.position (snd st')) px = false ->
       screen' px = screen px.
Proof.
  intros Hreach Hkeys Hreset Hframe.
  destruct (frame_Ok events (s, a) st' screen screen' g g' Hframe)
    as [Htick ->].
  assert (Hreach' : Reachable (st', g'))
    by (apply (reach_tick (s, a) g events st' g' Hreach Htick)).
  split; [exact Hreach' |].
  split; [apply (Reachable_play_inv st' g' Hreach') |].
  rewrite tick_eq, Hkeys in Htick. unfold move_resets in Hreset.
  rewrite Hreset, reset_eq in Htick.
  match type of Htick with
  | eat ?x _ ?y = _ =>
      rewrite (eat_eq x a board_centre [] y eq_refl) in Htick
  end.
  assert (Hs : Snake.positions (fst st') = [board_centre]
               /\ Snake.last (fst st') = None).
  { destruct (vec_eqb board_centre (Apple.position a));
      injection Htick as <- _; split; reflexivity. }
  destruct Hs as [Hpos Hlast]. split; [exact Hpos |]. split; [exact Hlast |].
  intros px Hc Ha. rewrite render_eq, Ha, Hpos, Hlast.
  cbn [existsb]. rewrite Hc. reflexivity.
Qed.

Lemma reset_frame_keeps_old_body_witness :
  Reachable (restarted_snake, moved_apple, restarted_rng)
  /\ apple_cell_ok (snd (restarted_snake, moved_apple))
  /\ Snake.positions (fst (restarted_snake, moved_apple)) = [board_centre]
  /\ Snake.last (fst (restarted_snake, moved_apple)) = None
  /\ forall px,
       covers board_centre px = false ->
       covers (Apple.position (snd (restarted_snake, moved_apple))) px
       = false ->
       Apple.draw moved_apple (Snake.draw restarted_snake coiled_screen) px
       = coiled_screen px.
Proof.
  apply (reset_frame_keeps_old_body [KEYDOWN K_UP] coiled_snake
           (Snake.buffer_direction UP coiled_snake) centre_apple
           (restarted_snake, moved_apple) coiled_screen
           (Apple.draw moved_apple (Snake.draw restarted_snake coiled_screen))
           coiled_rng restarted_rng).
  - exact coiled_Reachable.
  - reflexivity.
  - reflexivity.
  - reflexivity.
Defined.

(** ** Further properties: attributes that never change, and a bound *)

(** X14: [move] never updates the [position] attribute the snake inherits
    from [GameObject]: in every state [main] reaches it is the board centre,
    wherever the head is, and the snake's colour is the one it was built
    with. *)
Theorem snake_position_is_fixed (st : Snake.t * Apple.t) (g : RNG) :
  Reachable (st, g) ->
  Snake.position (fst st) = board_centre
  /\ Snake.body_color (fst st) = SNAKE_COLOR.
Proof.
  intros Hreach.
  destruct (Reachable_play_inv st g Hreach) as [[_ _ _ _ Hfix] _].
  exact Hfix.
Qed.

Lemma snake_position_is_fixed_witness :
  Snake.position (fst (coiled_snake, centre_apple)) = board_centre
  /\ Snake.body_color (fst (coiled_snake, centre_apple)) = SNAKE_COLOR.
Proof.
  apply (snake_position_is_fixed (coiled_snake, centre_apple) coiled_rng).
  exact coiled_Reachable.
Defined.

Lemma on_grid_all_cells (p : Vec) : on_grid p -> In p all_cells.
Proof.
  destruct p as [x y]. intros [[Hx Hy] [[i Ei] [j Ej]]].
  simpl in Hx, Hy, Ei, Ej. unfold all_cells. apply in_flat_map.
  unfold SCREEN_WIDTH, SCREEN_HEIGHT, GRID_SIZE in *.
  change (Z.to_nat GRID_WIDTH) with 32%nat.
  change (Z.to_nat GRID_HEIGHT) with 24%nat.
  exists (Z.to_nat i). split; [apply in_seq; lia |].
  apply in_map_iff. exists (Z.to_nat j). split; [| apply in_seq; lia].
  rewrite !Z2Nat.id by lia. congruence.
Qed.

(** X15: the snake never outgrows the board.  In every state [main]
    reaches the body has at most as many cells as the board, 768, and the
    growth target is at most one more. *)
Theorem body_fits_the_board (st : Snake.t * Apple.t) (g : RNG) :
  Reachable (st, g) ->
  Z.of_nat (List.length (Snake.positions (fst st)))
  <= GRID_WIDTH * GRID_HEIGHT
  /\ Snake.length (fst st) <= GRID_WIDTH * GRID_HEIGHT + 1
  /\ GRID_WIDTH * GRID_HEIGHT = 768.
Proof.
  intros Hreach.
  pose proof (Reachable_loop_inv st g Hreach) as Hinv.
  destruct (Reachable_play_inv st g Hreach) as [Hplay _].
  destruct (li_body _ Hinv) as (_ & Hnd & _).
  assert (Hle : (List.length (Snake.positions (fst st))
                 <= List.length all_cells)%nat).
  { apply NoDup_incl_length; [exact Hnd |].
    intros p Hp. apply on_grid_all_cells.
    revert p Hp. apply Forall_forall. exact (pi_grid _ Hplay). }
  change (List.length all_cells) with 768%nat in Hle.
  change (GRID_WIDTH * GRID_HEIGHT) with 768.
  pose proof (pi_gap _ Hplay). repeat split; lia.
Qed.

Lemma body_fits_the_board_witness :
  Z.of_nat (List.length (Snake.positions (fst (coiled_snake, centre_apple))))
  <= GRID_WIDTH * GRID_HEIGHT
  /\ Snake.length (fst (coiled_snake, centre_apple))
     <= GRID_WIDTH * GRID_HEIGHT + 1
  /\ GRID_WIDTH * GRID_HEIGHT = 768.
Proof.
  apply (body_fits_the_board (coiled_snake, centre_apple) coiled_rng).
  exact coiled_Reachable.
Defined.

(** ** Further properties: the colours of the window *)

Lemma tick_apple_color (events : list Event) (s s' : Snake.t)
    (a a' : Apple.t) (g g' : RNG) :
  tick events (s, a) g = Ok (s', a', g') ->
  Apple.body_color a' = Apple.body_color a.
Proof.
  intros Htick.
  destruct (tick_cases events s s' a a' g g' Htick)
    as (s1 & h & rest & _ & Hpos & Hcase).
  destruct Hcase as [(_ & s3 & g3 & Hreset & _ & Heat) | (_ & _ & Heat)].
  - rewrite reset_eq in Hreset.
    match type of Hreset with
    | Ok (?x, ?y) = _ =>
        assert (E : x = s3 /\ y = g3) by (split; congruence);
        destruct E as [<- <-]
    end.
    match type of Heat with
    | eat ?x _ ?y = _ =>
        rewrite (eat_eq x a board_centre [] y eq_refl) in Heat
    end.
    destruct (vec_eqb board_centre (Apple.position a));
      injection Heat as _ <- _; reflexivity.
  - destruct (advanced_head (Snake.update_direction s1)
                (step_wrapped h (Snake.direction (Snake.update_direction s1)))
                h rest Hpos) as (tl & Hadv).
    rewrite (eat_eq _ a _ tl g Hadv) in Heat.
    destruct (vec_eqb _ (Apple.position a)); injection Heat as _ <- _;
      reflexivity.
Qed.

Lemma Reachable_apple_color (st : Snake.t * Apple.t) (g : RNG) :
  Reachable (st, g) -> Apple.body_color (snd st) = APPLE_COLOR.
Proof.
  intros H. remember (st, g) as w eqn:Ew. revert st g Ew.
  induction H as [g0 st0 g0' Hinit
                 | [s a] g0 events [s' a'] g0' Hreach IH Htick];
    intros st g Ew; injection Ew as <- <-.
  - unfold main_init, Apple.init, bind in Hinit.
    rewrite randomize_position_eq in Hinit.
    injection Hinit as <- _. reflexivity.
  - cbn [snd]. rewrite (tick_apple_color events s s' a a' g0 g0' Htick).
    apply (IH (s, a) g0 eq_refl).
Qed.

Lemma covers_on_screen (p px : Vec) :
  on_screen px = false -> covers p px = false.
Proof. intros H. unfold covers. rewrite H. apply andb_false_r. Qed.

Lemma frames_colours (batches : list (list Event)) :
  forall st screen g st' screen' g',
    Reachable (st, g) -> three_colours screen ->
    frames batches (st, screen) g = Ok (st', screen', g') ->
    three_colours screen'
    /\ forall px, on_screen px = false -> screen' px = screen px.
Proof.
  induction batches as [|events rest IH];
    intros st screen g st' screen' g' Hreach Hcol Hrun.
  - injection Hrun as _ <- _. split; [exact Hcol | reflexivity].
  - cbn [frames] in Hrun. unfold bind in Hrun.
    destruct (frame events (st, screen) g) as [[[st1 screen1] g1] | e]
      eqn:Hframe; [| discriminate Hrun].
    destruct (frame_Ok events st st1 screen screen1 g g1 Hframe)
      as [Htick ->].
    assert (Hreach1 : Reachable (st1, g1))
      by (apply (reach_tick st g events st1 g1 Hreach Htick)).
    destruct (IH st1 (Apple.draw (snd st1) (Snake.draw (fst st1) screen))
                g1 st' screen' g' Hreach1) as [Hcol' Hout'];
      [| exact Hrun |].
    + intros px Hpx. rewrite render_eq.
      rewrite (Reachable_apple_color st1 g1 Hreach1).
      destruct (Reachable_play_inv st1 g1 Hreach1)
        as [[_ _ _ _ [_ ->]] _].
      destruct (covers _ px); [auto |].
      destruct (existsb _ _); [auto |].
      destruct (Snake.last (fst st1)) as [erased |]; [| auto].
      destruct (covers erased px); auto.
    + split; [exact Hcol' |].
      intros px Hpx. rewrite (Hout' px Hpx), render_eq.
      rewrite (covers_on_screen _ px Hpx).
      assert (E : existsb (fun p => covers p px) (Snake.positions (fst st1))
                  = false).
      { apply not_true_is_false. intros H. apply existsb_exists in H.
        destruct H as (p & _ & Hp).
        rewrite (covers_on_screen p px Hpx) in Hp. discriminate Hp. }
      rewrite E. destruct (Snake.last (fst st1)) as [erased |];
        [rewrite (covers_on_screen erased px Hpx) |]; reflexivity.
Qed.

(** X16: the window only ever shows the three colours of the game.  After
    [main] has filled the screen and run any number of iterations, every
    pixel of the window is background, snake colour or apple colour, and no
    pixel outside the window has been written. *)
Theorem main_screen_colours (batches : list (list Event))
    (screen screen' : Surface) (g g' : RNG) (st' : Snake.t * Apple.t) :
  main_screen batches screen g = Ok (st', screen', g') ->
  three_colours screen'
  /\ forall px, on_screen px = false -> screen' px = screen px.
Proof.
  unfold main_screen, bind. intros Hrun.
  destruct (main_init g) as [[st0 g0] | e] eqn:Hinit; [| discriminate Hrun].
  destruct (frames_colours batches st0
              (surface_fill screen BOARD_BACKGROUND_COLOR) g0 st' screen' g'
              (reach_init g st0 g0 Hinit)) as [Hcol Hout].
  - intros px Hpx. unfold surface_fill. rewrite Hpx. auto.
  - exact Hrun.
  - split; [exact Hcol |].
    intros px Hpx. rewrite (Hout px Hpx). unfold surface_fill.
    rewrite Hpx. reflexivity.
Qed.

Lemma main_screen_colours_witness :
  three_colours
    (Apple.draw ahead_apple
       (Snake.draw (Snake.grow stepped_snake)
          (surface_fill (fun _ => (7, 7, 7)) BOARD_BACKGROUND_COLOR)))
  /\ forall px,
       on_screen px = false ->
       Apple.draw ahead_apple
         (Snake.draw (Snake.grow stepped_snake)
            (surface_fill (fun _ => (7, 7, 7)) BOARD_BACKGROUND_COLOR)) px
       = (7, 7, 7).
Proof.
  apply (main_screen_colours [[]] (fun _ => (7, 7, 7))
           (Apple.draw ahead_apple
              (Snake.draw (Snake.grow stepped_snake)
                 (surface_fill (fun _ => (7, 7, 7)) BOARD_BACKGROUND_COLOR)))
           (rng_of replay_draws) (mkRNG (tape (rng_of replay_draws)) 4)
           (Snake.grow stepped_snake, ahead_apple)).
  reflexivity.
Defined.
